(** * CustomerLogger: a shallow embedding of [logger.py]

    The repository is one Python class, [CustomerLogger], on top of the
    standard [logging] module:

    - [CustomerLogger.__new__] (lines 15-50) is a process-wide singleton
      that, the first time it runs, creates the [log] directory and wires
      one logger per name to an info file, an error file and optionally
      the console;
    - [CustomerLogger.trace_call] (lines 52-95) is a decorator factory
      whose [wrapper] looks the logger up, binds the call's arguments to
      the signature of the wrapped function, calls it and logs either the
      successful call at INFO level or the exception at ERROR level.

    Python keeps all of this in mutable process state: the two class
    attributes, the table of [logging] loggers, the files and the console.
    The embedding threads that state explicitly as a [world].

    The specification calls [__new__] [GetOrCreate] and the decorator
    [Wrap]; the definitions below keep the names of the source.

    The standard library is modelled as far as the source calls into it:

    - [logging]: loggers with a level and a list of handlers, handlers
      with a level and a sink.  Logger names are flat: a record goes to
      the handlers of the logger it is sent to (the further delivery of
      the records of a dotted name to the handlers of its ancestors is
      left out), and a logger without a level of its own has the default
      level of the root logger, WARNING;
    - [inspect]: signatures made of positional-or-keyword parameters,
      with or without defaults;
    - values are immutable and converting one to [str] succeeds;
      creating the directory and opening a file succeed; there is one
      thread. *)

From Stdlib Require Import ZArith Ascii String.
From stdpp Require Import gmap strings list fin_maps.

Open Scope Z_scope.

(** ** Python-side data *)

(** Exceptions.  [exn_is_Exception] says whether the class derives from
    [Exception] (what [except Exception] tests); [SystemExit],
    [KeyboardInterrupt] and [GeneratorExit] derive from [BaseException]
    only.  [exn_str] is [str(e)], [exn_frames] the frame listing that
    [traceback.format_exc] prints between its header and the last line. *)
Record exn := {
  exn_type : string;
  exn_is_Exception : bool;
  exn_str : string;
  exn_frames : string
}.

Definition AttributeError (m : string) : exn :=
  {| exn_type := "AttributeError"; exn_is_Exception := true;
     exn_str := m; exn_frames := "" |}.

Definition TypeError (m : string) : exn :=
  {| exn_type := "TypeError"; exn_is_Exception := true;
     exn_str := m; exn_frames := "" |}.

(** The line feed, and Python's single quote (used by [{arg!r}]). *)
Definition LF : ascii := ascii_of_nat 10.
Definition nl : string := String LF "".
Definition quoted (s : string) : string := "'" +:+ s +:+ "'".

(** [traceback.format_exc()] inside the [except] block: the fixed header
    line, the frames, then [Type: message] (or [Type] alone when the
    message is empty), each terminated by a line feed. *)
Definition format_exc (e : exn) : string :=
  "Traceback (most recent call last):" +:+ nl +:+ exn_frames e +:+
  exn_type e +:+ (if decide (exn_str e = "") then "" else ": " +:+ exn_str e)
  +:+ nl.

(** [time.struct_time], as far as the formatter's [datefmt] reads it. *)
Record struct_time := {
  tm_year : nat; tm_mon : nat; tm_mday : nat;
  tm_hour : nat; tm_min : nat; tm_sec : nat
}.

(** What the interpreter and the platform supply: the universe of Python
    objects with their default string conversion, and the clock.
    [wall n] is the value of the [n]-th call of [time.time()] made by the
    process; nothing is assumed about it, so any clock behaviour is
    covered.  [fmt_elapsed t0 t1] is the text of
    [f"{t1 - t0:.4f}"], a floating point rendering the model leaves
    abstract. *)
Class Runtime := {
  value : Type;
  str_of : value → string;
  timeval : Type;
  wall : nat → timeval;
  localtime : timeval → struct_time;
  fmt_elapsed : timeval → timeval → string
}.

(** ** The [logging] module, as far as the source uses it *)

Definition NOTSET : Z := 0.
Definition DEBUG : Z := 10.
Definition INFO : Z := 20.
Definition WARNING : Z := 30.
Definition ERROR : Z := 40.

Inductive Sink :=
| FileSink (path : string)      (* logging.FileHandler(path), append mode *)
| ConsoleSink.                  (* logging.StreamHandler(sys.stdout) *)

Record Handler := { h_sink : Sink; h_level : Z }.

Record Logger := { lg_level : Z; lg_handlers : list Handler }.

Global Instance Sink_eq_dec : EqDecision Sink.
Proof. solve_decision. Defined.

Global Instance Handler_eq_dec : EqDecision Handler.
Proof. solve_decision. Defined.

(** *** The formatter of line 25 *)

Definition digit (n : nat) : ascii := ascii_of_nat (48 + n mod 10).

(** Decimal rendering of a natural number, most significant digit first. *)
Fixpoint decimal_go (fuel n : nat) (acc : string) : string :=
  match fuel with
  | O => acc
  | S k =>
      let acc' := String (digit n) acc in
      if (n / 10 =? 0)%nat then acc' else decimal_go k (n / 10) acc'
  end.

Definition decimal (n : nat) : string := decimal_go (S n) n "".

(** [logging.getLevelName(lv)], the [%(levelname)s] of a record. *)
Definition getLevelName (lv : Z) : string :=
  if (lv =? 10)%Z then "DEBUG" else
  if (lv =? 20)%Z then "INFO" else
  if (lv =? 30)%Z then "WARNING" else
  if (lv =? 40)%Z then "ERROR" else
  if (lv =? 50)%Z then "CRITICAL" else "Level " +:+ decimal (Z.to_nat lv).

(** [%m], [%d], [%H], [%M], [%S]: two digits, zero padded (the fields of
    a [struct_time] are below 100). *)
Definition pad2 (n : nat) : string :=
  String (digit (n / 10)) (String (digit n) "").

(** [time.strftime('%Y-%m-%d %H:%M:%S', t)]; [%Y] is the year in decimal,
    not padded. *)
Definition strftime (t : struct_time) : string :=
  decimal (tm_year t) +:+ "-" +:+ pad2 (tm_mon t) +:+ "-" +:+ pad2 (tm_mday t)
  +:+ " " +:+ pad2 (tm_hour t) +:+ ":" +:+ pad2 (tm_min t) +:+ ":" +:+
  pad2 (tm_sec t).

(** *** The line format of the specification

    [^\[\d{4}-\d{2}-\d{2} \d{2}:\d{2}:\d{2}\] \[(INFO|ERROR)\] .+$],
    written out as a recogniser: a fixed run of literal characters and
    digits, one of the two level names, and a non-empty rest without line
    feed ([$] also accepts one line feed that ends the string). *)

Definition is_digit (c : ascii) : bool :=
  (48 <=? nat_of_ascii c)%nat && (nat_of_ascii c <=? 57)%nat.

Inductive atom :=
| Lit (c : ascii)     (* this character *)
| Digit.              (* \d *)

Fixpoint match_atoms (pat : list atom) (s : string) : option string :=
  match pat with
  | [] => Some s
  | a :: pat' =>
      match s with
      | "" => None
      | String c s' =>
          if match a with Lit l => bool_decide (c = l) | Digit => is_digit c end
          then match_atoms pat' s' else None
      end
  end.

Definition literal (s : string) : list atom := map Lit (list_ascii_of_string s).

Definition stamp_pattern : list atom :=
  literal "[" ++ repeat Digit 4 ++ literal "-" ++ repeat Digit 2 ++
  literal "-" ++ repeat Digit 2 ++ literal " " ++ repeat Digit 2 ++
  literal ":" ++ repeat Digit 2 ++ literal ":" ++ repeat Digit 2 ++
  literal "] [".

Fixpoint no_LF (s : string) : bool :=
  match s with
  | "" => true
  | String c r => negb (bool_decide (c = LF)) && no_LF r
  end.

Fixpoint dot_star_end (s : string) : bool :=
  match s with
  | "" => true
  | String c r => if bool_decide (c = LF) then bool_decide (r = "") else dot_star_end r
  end.

Definition dot_plus_end (s : string) : bool :=
  match s with
  | "" => false
  | String c r => negb (bool_decide (c = LF)) && dot_star_end r
  end.

Definition matches_line_format (s : string) : bool :=
  match match_atoms stamp_pattern s with
  | None => false
  | Some rest =>
      match match_atoms (literal "INFO] ") rest with
      | Some m => dot_plus_end m
      | None =>
          match match_atoms (literal "ERROR] ") rest with
          | Some m => dot_plus_end m
          | None => false
          end
      end
  end.

(** What a file handler leaves on disk: every record followed by the
    terminator, a line feed; and the lines a reader of the file sees. *)
Definition file_text (records : list string) : string :=
  fold_right (λ r acc, r +:+ nl +:+ acc) "" records.

Fixpoint lines_go (cur : list ascii) (s : string) : list string :=
  match s with
  | "" =>
      match cur with
      | [] => []
      | _ => [string_of_list_ascii (rev cur)]
      end
  | String c r =>
      if bool_decide (c = LF)
      then string_of_list_ascii (rev cur) :: lines_go [] r
      else lines_go (c :: cur) r
  end.

Definition lines (s : string) : list string := lines_go [] s.

(** A year that [%Y] prints with four digits. *)
Definition four_digit_year (t : struct_time) : Prop :=
  (1000 <= Z.of_nat (tm_year t) <= 9999)%Z.

Section Model.
Context `{RT : Runtime}.

(** A [LogRecord]: level, creation time, message. *)
Record LogRecord := {
  levelno : Z;
  created : timeval;
  message : string
}.

(** [logging.Formatter('[%(asctime)s] [%(levelname)s] %(message)s',
    datefmt='%Y-%m-%d %H:%M:%S').format(record)]. *)
Definition format (r : LogRecord) : string :=
  "[" +:+ strftime (localtime (created r)) +:+ "] [" +:+
  getLevelName (levelno r) +:+ "] " +:+ message r.

(** ** The process state *)

Record world := {
  _instance : option nat;              (* CustomerLogger._instance *)
  _logger_list : gmap string string;   (* CustomerLogger._logger_list:
                                          name -> the logger object, named
                                          by its key in [loggerDict] *)
  loggerDict : gmap string Logger;     (* the loggers of [logging] *)
  log_dir : bool;                      (* os.path.exists("log") *)
  files : gmap string (list string);   (* path -> records written, in order *)
  stdout : list string;                (* records written to sys.stdout *)
  ticks : nat;                         (* calls of time.time() so far *)
  next_obj : nat                       (* identity of the next new object *)
}.

Definition set_instance (i : option nat) (w : world) : world :=
  {| _instance := i; _logger_list := _logger_list w;
     loggerDict := loggerDict w; log_dir := log_dir w; files := files w;
     stdout := stdout w; ticks := ticks w; next_obj := next_obj w |}.

Definition set_logger_list (m : gmap string string) (w : world) : world :=
  {| _instance := _instance w; _logger_list := m;
     loggerDict := loggerDict w; log_dir := log_dir w; files := files w;
     stdout := stdout w; ticks := ticks w; next_obj := next_obj w |}.

Definition set_loggerDict (d : gmap string Logger) (w : world) : world :=
  {| _instance := _instance w; _logger_list := _logger_list w;
     loggerDict := d; log_dir := log_dir w; files := files w;
     stdout := stdout w; ticks := ticks w; next_obj := next_obj w |}.

Definition set_log_dir (b : bool) (w : world) : world :=
  {| _instance := _instance w; _logger_list := _logger_list w;
     loggerDict := loggerDict w; log_dir := b; files := files w;
     stdout := stdout w; ticks := ticks w; next_obj := next_obj w |}.

Definition set_files (f : gmap string (list string)) (w : world) : world :=
  {| _instance := _instance w; _logger_list := _logger_list w;
     loggerDict := loggerDict w; log_dir := log_dir w; files := f;
     stdout := stdout w; ticks := ticks w; next_obj := next_obj w |}.

Definition set_stdout (o : list string) (w : world) : world :=
  {| _instance := _instance w; _logger_list := _logger_list w;
     loggerDict := loggerDict w; log_dir := log_dir w; files := files w;
     stdout := o; ticks := ticks w; next_obj := next_obj w |}.

Definition set_ticks (n : nat) (w : world) : world :=
  {| _instance := _instance w; _logger_list := _logger_list w;
     loggerDict := loggerDict w; log_dir := log_dir w; files := files w;
     stdout := stdout w; ticks := n; next_obj := next_obj w |}.

Definition set_next_obj (n : nat) (w : world) : world :=
  {| _instance := _instance w; _logger_list := _logger_list w;
     loggerDict := loggerDict w; log_dir := log_dir w; files := files w;
     stdout := stdout w; ticks := ticks w; next_obj := n |}.

(** A process that has not imported anything yet. *)
Definition fresh : world :=
  {| _instance := None; _logger_list := ∅; loggerDict := ∅;
     log_dir := false; files := ∅; stdout := []; ticks := 0%nat;
     next_obj := 0%nat |}.

(** [time.time()]. *)
Definition time_time (w : world) : timeval * world :=
  (wall (ticks w), set_ticks (S (ticks w)) w).

(** [logging.getLogger(name)]: the logger of that name, created with level
    NOTSET and no handler when it does not exist yet. *)
Definition getLogger (name : string) (w : world) : world :=
  match loggerDict w !! name with
  | Some _ => w
  | None =>
      set_loggerDict
        (<[name := {| lg_level := NOTSET; lg_handlers := [] |}]> (loggerDict w)) w
  end.

Definition handlers_of (w : world) (lg : string) : list Handler :=
  match loggerDict w !! lg with
  | Some L => lg_handlers L
  | None => []
  end.

Definition level_of (w : world) (lg : string) : Z :=
  match loggerDict w !! lg with
  | Some L => lg_level L
  | None => NOTSET
  end.

(** [logger.addHandler(h)] (the handler objects built by [__new__] are all
    new, so it always appends). *)
Definition addHandler (lg : string) (h : Handler) (w : world) : world :=
  set_loggerDict
    (alter (λ L, {| lg_level := lg_level L;
                    lg_handlers := lg_handlers L ++ [h] |}) lg (loggerDict w)) w.

(** [logger.setLevel(lv)]. *)
Definition setLevel (lg : string) (lv : Z) (w : world) : world :=
  set_loggerDict
    (alter (λ L, {| lg_level := lv; lg_handlers := lg_handlers L |})
       lg (loggerDict w)) w.

(** [logger.getEffectiveLevel()]: the logger's own level when it is set,
    otherwise the one inherited from the root logger, whose default is
    WARNING. *)
Definition getEffectiveLevel (w : world) (lg : string) : Z :=
  if (level_of w lg =? NOTSET)%Z then WARNING else level_of w lg.

(** Opening [logging.FileHandler(path)] creates the file when it is
    missing and otherwise leaves its content alone. *)
Definition open_append (path : string) (w : world) : world :=
  match files w !! path with
  | Some _ => w
  | None => set_files (<[path := []]> (files w)) w
  end.

(** [handler.emit(record)]: the formatted record goes to the sink. *)
Definition emit (h : Handler) (r : LogRecord) (w : world) : world :=
  match h_sink h with
  | FileSink p => set_files (<[p := files w !!! p ++ [format r]]> (files w)) w
  | ConsoleSink => set_stdout (stdout w ++ [format r]) w
  end.

(** [Logger.callHandlers]: every handler whose level the record reaches. *)
Definition callHandlers (hs : list Handler) (r : LogRecord) (w : world) : world :=
  fold_left (λ w h, if (h_level h <=? levelno r)%Z then emit h r w else w) hs w.

(** [logger.log(lv, msg)], which is what [logger.info(msg)] and
    [logger.error(msg)] are: nothing when the level is not enabled,
    otherwise a record stamped with the current time, handed to the
    handlers. *)
Definition log (lv : Z) (lg : string) (msg : string) (w : world) : world :=
  if (getEffectiveLevel w lg <=? lv)%Z then
    let '(now, w1) := time_time w in
    callHandlers (handlers_of w1 lg)
      {| levelno := lv; created := now; message := msg |} w1
  else w.

Definition info := log INFO.
Definition error := log ERROR.

(** ** Python callables *)

Inductive outcome :=
| Return (v : value)
| Raise (e : exn).

(** A parameter of a signature.  The model covers the ordinary
    positional-or-keyword parameters, with or without a default, which
    is what [def f(a, b, c=3)] declares. *)
Record param := { p_name : string; p_default : option value }.

(** A callable object: [__name__], the signature [inspect.signature]
    reports, and what calling it with [*args] and [**kwargs] does to the
    process.  [kwargs] is a Python dict: its keys are distinct and keep
    their order. *)
Record pyfunc := {
  fn_name : string;
  fn_params : list param;
  fn_code : list value → list (string * value) → world → outcome * world
}.

Fixpoint kw_get (k : string) (kwargs : list (string * value)) : option value :=
  match kwargs with
  | [] => None
  | (k', v) :: rest => if decide (k = k') then Some v else kw_get k rest
  end.

Fixpoint kw_pop (k : string) (kwargs : list (string * value))
  : list (string * value) :=
  match kwargs with
  | [] => []
  | (k', v) :: rest =>
      if decide (k = k') then kw_pop k rest else (k', v) :: kw_pop k rest
  end.

(** [inspect.Signature.bind], second loop: the parameters left once the
    positional arguments are used up take their value from [kwargs];
    keywords that name no parameter are an error. *)
Fixpoint bind_keywords (ps : list param) (kwargs : list (string * value))
  : exn + list (string * value) :=
  match ps with
  | [] =>
      match kwargs with
      | [] => inr []
      | (k, _) :: _ =>
          inl (TypeError ("got an unexpected keyword argument " +:+ quoted k))
      end
  | p :: ps' =>
      match kw_get (p_name p) kwargs with
      | Some v =>
          match bind_keywords ps' (kw_pop (p_name p) kwargs) with
          | inl e => inl e
          | inr bound => inr ((p_name p, v) :: bound)
          end
      | None =>
          match p_default p with
          | None =>
              inl (TypeError
                     ("missing a required argument: " +:+ quoted (p_name p)))
          | Some _ => bind_keywords ps' kwargs
          end
      end
  end.

(** [inspect.Signature.bind], first loop: positional arguments go to the
    parameters in declaration order. *)
Fixpoint bind (ps : list param) (args : list value)
    (kwargs : list (string * value)) {struct args}
  : exn + list (string * value) :=
  match args with
  | [] => bind_keywords ps kwargs
  | a :: args' =>
      match ps with
      | [] => inl (TypeError "too many positional arguments")
      | p :: ps' =>
          match kw_get (p_name p) kwargs with
          | Some _ =>
              inl (TypeError
                     ("multiple values for argument " +:+ quoted (p_name p)))
          | None =>
              match bind ps' args' kwargs with
              | inl e => inl e
              | inr bound => inr ((p_name p, a) :: bound)
              end
          end
      end
  end.

(** [BoundArguments.apply_defaults]: the arguments in declaration order,
    a default standing in for each parameter that was not supplied. *)
Definition apply_defaults (ps : list param) (arguments : list (string * value))
  : list (string * value) :=
  omap (λ p, match kw_get (p_name p) arguments with
             | Some v => Some (p_name p, v)
             | None =>
                 match p_default p with
                 | Some d => Some (p_name p, d)
                 | None => None
                 end
             end) ps.

(** Lines 63-65 of the wrapper. *)
Definition bound_arguments (func : pyfunc) (args : list value)
    (kwargs : list (string * value)) : exn + list (string * value) :=
  match bind (fn_params func) args kwargs with
  | inl e => inl e
  | inr arguments => inr (apply_defaults (fn_params func) arguments)
  end.

(** A function written with [def]: the interpreter binds the arguments to
    the parameters (raising [TypeError] when they do not fit) and runs the
    body on them. *)
Definition def (name : string) (params : list param)
    (body : list (string * value) → world → outcome * world) : pyfunc :=
  {| fn_name := name;
     fn_params := params;
     fn_code := λ args kwargs w,
       match bind params args kwargs with
       | inl e => (Raise e, w)
       | inr arguments => body (apply_defaults params arguments) w
       end |}.

(** ** [CustomerLogger.__new__] (lines 15-50) *)

Definition info_path (name : string) : string := "log/" +:+ name +:+ "_info.log".
Definition error_path (name : string) : string := "log/" +:+ name +:+ "_error.log".

Definition info_handler (name : string) : Handler :=
  {| h_sink := FileSink (info_path name); h_level := INFO |}.
Definition error_handler (name : string) : Handler :=
  {| h_sink := FileSink (error_path name); h_level := ERROR |}.
Definition console_handler : Handler :=
  {| h_sink := ConsoleSink; h_level := DEBUG |}.

(** One turn of the loop of line 28. *)
Definition setup_logger (console : bool) (w : world) (name : string) : world :=
  let w := getLogger name w in
  let w := set_logger_list (<[name := name]> (_logger_list w)) w in
  let w := open_append (info_path name) w in
  let w := addHandler name (info_handler name) w in
  let w := open_append (error_path name) w in
  let w := addHandler name (error_handler name) w in
  if console then addHandler name console_handler w else w.

(** [CustomerLogger(logger_name, console)]: returns the instance. *)
Definition __new__ (logger_name : list string) (console : bool) (w : world)
  : nat * world :=
  match _instance w with
  | None =>
      let i := next_obj w in
      let w := set_instance (Some i) (set_next_obj (S i) w) in
      let w := if log_dir w then w else set_log_dir true w in
      (i, fold_left (setup_logger console) logger_name w)
  | Some i => (i, w)
  end.

(** ** [CustomerLogger.trace_call] (lines 52-95) *)

(** The loops of lines 76-77 and 88-89. *)
Definition log_arguments (lv : Z) (lg : string)
    (func_args : list (string * value)) (w : world) : world :=
  fold_left (λ w a, log lv lg (a.1 +:+ ": " +:+ str_of a.2) w) func_args w.

(** The [wrapper] that the decorator [trace_call(logger_name, to_log)]
    puts around [func], called with positional arguments [args] and
    keyword arguments [kwargs]. *)
Definition wrapper (logger_name : string) (to_log : option string)
    (func : pyfunc) (args : list value) (kwargs : list (string * value))
    (w : world) : outcome * world :=
  match _logger_list w !! logger_name with
  | None =>
      (* [dict.get] gave None, and None has no [setLevel] *)
      (Raise (AttributeError "'NoneType' object has no attribute 'setLevel'"), w)
  | Some logger =>
      let w := setLevel logger INFO w in
      match bound_arguments func args kwargs with
      | inl e => (Raise e, w)
      | inr func_args =>
          let '(start_time, w) := time_time w in
          match fn_code func args kwargs w with
          | (Return result, w) =>
              let '(now, w) := time_time w in
              let w := info logger
                         ("Calling function: " +:+ fn_name func +:+
                          " | Execution time: " +:+ fmt_elapsed start_time now
                          +:+ " seconds") w in
              let w := info logger "Arguments:" w in
              let w := log_arguments INFO logger func_args w in
              let w := info logger ("Result: " +:+ str_of result) w in
              let w := match to_log with
                       | Some s =>
                           if decide (s = "") then w
                           else info logger ("Additinal message: " +:+ s) w
                       | None => w
                       end in
              (Return result, w)
          | (Raise e, w) =>
              if exn_is_Exception e then
                let w := setLevel logger ERROR w in
                let w := error logger ("Calling function: " +:+ fn_name func) w in
                let w := error logger ("Exception: " +:+ exn_str e) w in
                let w := error logger "Arguments:" w in
                let w := log_arguments ERROR logger func_args w in
                let w := error logger ("Traceback: " +:+ format_exc e) w in
                (Raise e, w)
              else (Raise e, w)
          end
      end
  end.

(** The decorated function: [functools.wraps] gives it the name of [func]
    and makes [inspect.signature] report the signature of [func]. *)
Definition trace_call (logger_name : string) (to_log : option string)
    (func : pyfunc) : pyfunc :=
  {| fn_name := fn_name func;
     fn_params := fn_params func;
     fn_code := wrapper logger_name to_log func |}.

(** ** Vocabulary for the statements *)

(** What a sink holds. *)
Definition sink_content (w : world) (s : Sink) : list string :=
  match s with
  | FileSink p => files w !!! p
  | ConsoleSink => stdout w
  end.

(** Does a record of level [lv] reach sink [s] through handler [h]? *)
Definition reaches (s : Sink) (lv : Z) (h : Handler) : bool :=
  bool_decide (h_sink h = s) && (h_level h <=? lv)%Z.

(** How many of the handlers [hs] deliver a record of level [lv] to [s]. *)
Fixpoint hits (s : Sink) (lv : Z) (hs : list Handler) : nat :=
  match hs with
  | [] => 0%nat
  | h :: hs' => ((if reaches s lv h then 1 else 0) + hits s lv hs')%nat
  end.

(** The records made from the messages [msgs] by successive logging calls
    that start at clock reading number [t]. *)
Fixpoint stamp (t : nat) (lv : Z) (msgs : list string) : list LogRecord :=
  match msgs with
  | [] => []
  | m :: rest =>
      {| levelno := lv; created := wall t; message := m |} :: stamp (S t) lv rest
  end.

(** Successive calls of [logger.log(lv, m)]. *)
Definition log_all (lv : Z) (lg : string) (msgs : list string) (w : world) : world :=
  fold_left (λ w m, log lv lg m w) msgs w.

(** The handlers that one turn of the loop of [__new__] attaches. *)
Definition std_handlers (console : bool) (name : string) : list Handler :=
  [info_handler name; error_handler name] ++
  (if console then [console_handler] else []).

(** The handlers [__new__] can attach to the logger named [lg]. *)
Definition attached_by_new (lg : string) (h : Handler) : Prop :=
  h = info_handler lg ∨ h = error_handler lg ∨ h = console_handler.

Definition argument_lines (func_args : list (string * value)) : list string :=
  map (λ a, a.1 +:+ ": " +:+ str_of a.2) func_args.

(** The messages of lines 72-81, in the order of the calls. *)
Definition success_messages (func : pyfunc) (func_args : list (string * value))
    (start_time now : timeval) (result : value) (to_log : option string)
  : list string :=
  ["Calling function: " +:+ fn_name func +:+ " | Execution time: " +:+
     fmt_elapsed start_time now +:+ " seconds";
   "Arguments:"] ++
  argument_lines func_args ++
  ["Result: " +:+ str_of result] ++
  match to_log with
  | Some s => if decide (s = "") then [] else ["Additinal message: " +:+ s]
  | None => []
  end.

(** The messages of lines 85-90, in the order of the calls. *)
Definition error_messages (func : pyfunc) (func_args : list (string * value))
    (e : exn) : list string :=
  ["Calling function: " +:+ fn_name func;
   "Exception: " +:+ exn_str e;
   "Arguments:"] ++
  argument_lines func_args ++
  ["Traceback: " +:+ format_exc e].

(** The order in which the specification lists the error records:
    function name, arguments, exception, stack trace. *)
Definition specified_error_messages (func : pyfunc)
    (func_args : list (string * value)) (e : exn) : list string :=
  ["Calling function: " +:+ fn_name func; "Arguments:"] ++
  argument_lines func_args ++
  ["Exception: " +:+ exn_str e; "Traceback: " +:+ format_exc e].

(** A record that the wrapper may emit once [func] has come back with
    [out]: on a normal return one of the INFO messages, on an exception
    caught by [except Exception] one of the ERROR messages, and nothing
    otherwise. *)
Definition wrapper_record (func : pyfunc) (func_args : list (string * value))
    (start_time now : timeval) (to_log : option string) (out : outcome)
    (r : LogRecord) : Prop :=
  match out with
  | Return result =>
      levelno r = INFO ∧
      message r ∈ success_messages func func_args start_time now result to_log
  | Raise e =>
      levelno r = ERROR ∧ exn_is_Exception e = true ∧
      message r ∈ error_messages func func_args e
  end.

(** A function written with [def] whose body neither reads nor changes
    the process state. *)
Definition pure_def (name : string) (params : list param)
    (body : list (string * value) → outcome) : pyfunc :=
  def name params (λ arguments w, (body arguments, w)).

(** The process as the wrapper hands it to [func]: the logger is at INFO
    and the start time has been read (lines 60 and 68). *)
Definition at_call (logger : string) (w : world) : world :=
  (time_time (setLevel logger INFO w)).2.

(** How many times [name] occurs in the list given to [__new__]. *)
Definition listed (name : string) (names : list string) : nat :=
  length (filter (λ n, n = name) names).

(** A callable that leaves the registry, the instance and the handlers
    of every logger as it found them. *)
Definition keeps_wiring (func : pyfunc) : Prop :=
  ∀ args kwargs w,
    _logger_list (fn_code func args kwargs w).2 = _logger_list w ∧
    _instance (fn_code func args kwargs w).2 = _instance w ∧
    ∀ lg, handlers_of (fn_code func args kwargs w).2 lg = handlers_of w lg.

(** A callable that only ever adds to the end of what the sinks hold. *)
Definition append_only (func : pyfunc) : Prop :=
  ∀ args kwargs w s,
    sink_content w s `prefix_of` sink_content (fn_code func args kwargs w).2 s.

(** The value Python gives the [i]-th parameter [p] of a call: the
    positional argument at its position, else the keyword argument of
    its name, else its default. *)
Definition argument_value (args : list value) (kwargs : list (string * value))
    (i : nat) (p : param) : option value :=
  match args !! i with
  | Some a => Some a
  | None =>
      match kw_get (p_name p) kwargs with
      | Some v => Some v
      | None => p_default p
      end
  end.

(** Performing [__new__] calls one after the other. *)
Definition run_new (calls : list (list string * bool)) (w : world) : world :=
  fold_left (λ w c, (__new__ c.1 c.2 w).2) calls w.

End Model.

(** ** A concrete runtime and the functions of the scenarios

    Integers, strings and [None] with Python's [str], and a clock that
    starts at midnight of 2024-01-01 and advances one second per
    reading. *)

Module Demo.

Inductive pyval := PInt (z : Z) | PStr (s : string) | PNone.

Definition str_pyval (v : pyval) : string :=
  match v with
  | PInt z =>
      if (z <? 0)%Z then "-" +:+ decimal (Z.to_nat (- z))
      else decimal (Z.to_nat z)
  | PStr s => s
  | PNone => "None"
  end.

#[export] Instance runtime : Runtime := {|
  value := pyval;
  str_of := str_pyval;
  timeval := nat;
  wall := λ n, n;
  localtime := λ n,
    {| tm_year := 2024; tm_mon := 1; tm_mday := 1;
       tm_hour := (n / 3600) mod 24; tm_min := (n / 60) mod 60;
       tm_sec := n mod 60 |};
  fmt_elapsed := λ t0 t1, decimal (t1 - t0) +:+ ".0000"
|}.

Definition required (name : string) : param :=
  {| p_name := name; p_default := None |}.
Definition optional (name : string) (d : pyval) : param :=
  {| p_name := name; p_default := Some d |}.

Definition dq : string := String (ascii_of_nat 34) "".

Definition ZeroDivisionError (where_ : string) : exn :=
  {| exn_type := "ZeroDivisionError"; exn_is_Exception := true;
     exn_str := "division by zero";
     exn_frames := "  File " +:+ dq +:+ "app.py" +:+ dq +:+ ", line 9, in " +:+
                   where_ +:+ nl +:+ "    return x // y" +:+ nl |}.

(** Raised by [sys.exit("bye")]; [SystemExit] derives from
    [BaseException] only. *)
Definition SystemExit : exn :=
  {| exn_type := "SystemExit"; exn_is_Exception := false;
     exn_str := "bye"; exn_frames := "" |}.

Definition int_args (arguments : list (string * pyval)) (a b : string)
  : option (Z * Z) :=
  match kw_get a arguments, kw_get b arguments with
  | Some (PInt x), Some (PInt y) => Some (x, y)
  | _, _ => None
  end.

Definition xy : list param := [required "x"; required "y"].

(** [def add(x, y): return x + y] *)
Definition add_body (arguments : list (string * pyval)) : outcome :=
  match int_args arguments "x" "y" with
  | Some (x, y) => Return (PInt (x + y))
  | None => Raise (TypeError "unsupported operand type(s) for +")
  end.

Definition add : pyfunc := pure_def "add" xy add_body.

(** [def name(x, y): return x // y] *)
Definition floordiv_body (name : string) (arguments : list (string * pyval))
  : outcome :=
  match int_args arguments "x" "y" with
  | Some (x, y) =>
      if (y =? 0)%Z then Raise (ZeroDivisionError name)
      else Return (PInt (x / y))
  | None => Raise (TypeError "unsupported operand type(s) for //")
  end.

Definition floordiv (name : string) : pyfunc :=
  pure_def name xy (floordiv_body name).

Definition div : pyfunc := floordiv "div".

(** [def f(a, b, c=3): return None] *)
Definition f_abc : pyfunc :=
  pure_def "f" [required "a"; required "b"; optional "c" (PInt 3)]
    (λ _, Return PNone).

(** [def quit(): sys.exit("bye")] *)
Definition quit : pyfunc := pure_def "quit" [] (λ _, Raise SystemExit).

(** Two traced functions on the same logger, one calling the other:
<<
    @CustomerLogger.trace_call(logger_name="svc")
    def probe(x, y):
        return x // y

    @CustomerLogger.trace_call(logger_name="svc")
    def safe_ratio(x, y):
        try:
            return probe(x, y)
        except ZeroDivisionError:
            return 0
>>
*)
Definition probe : pyfunc := trace_call "svc" None (floordiv "probe").

Definition safe_ratio : pyfunc :=
  def "safe_ratio" xy
    (λ arguments w,
       match kw_get "x" arguments, kw_get "y" arguments with
       | Some x, Some y =>
           match fn_code probe [x; y] [] w with
           | (Return v, w') => (Return v, w')
           | (Raise e, w') =>
               if decide (exn_type e = "ZeroDivisionError")
               then (Return (PInt 0), w') else (Raise e, w')
           end
       | _, _ => (Raise (TypeError "unreachable"), w)
       end).

(** The process after [CustomerLogger(["svc"])]. *)
Definition svc_world : world := (__new__ ["svc"] false fresh).2.

(** The bound arguments of [add(2, 3)] and of [div(1, 0)]. *)
Definition add_args : list (string * pyval) := [("x", PInt 2); ("y", PInt 3)].
Definition div_args : list (string * pyval) := [("x", PInt 1); ("y", PInt 0)].

(** The traced calls [div(1, 0)] and [safe_ratio(1, 0)]. *)
Definition div_call : outcome * world :=
  wrapper "svc" None div [PInt 1; PInt 0] [] svc_world.

Definition ratio_call : outcome * world :=
  wrapper "svc" (Some "ratio") safe_ratio [PInt 1; PInt 0] [] svc_world.

End Demo.

(** * Properties *)

(** ** Strings, digits and the line format *)

Lemma string_app_cons c s t : String c s +:+ t = String c (s +:+ t).
Proof. reflexivity. Qed.

Lemma string_app_assoc s t u : (s +:+ t) +:+ u = s +:+ t +:+ u.
Proof.
  induction s as [|c s IH]; [done|].
  by rewrite !string_app_cons, IH.
Qed.

Lemma div10_facts n : (n = 10 * (n / 10) + n mod 10 ∧ n mod 10 < 10)%nat.
Proof. split; [apply Nat.div_mod_eq | apply Nat.mod_upper_bound; lia]. Qed.

Lemma nat_of_digit n : nat_of_ascii (digit n) = (48 + n mod 10)%nat.
Proof.
  unfold digit. apply nat_ascii_embedding.
  destruct (div10_facts n). lia.
Qed.

Lemma is_digit_digit n : is_digit (digit n) = true.
Proof.
  unfold is_digit. rewrite nat_of_digit. destruct (div10_facts n).
  apply andb_true_iff; split; apply Nat.leb_le; lia.
Qed.

Lemma digit_not_LF n : bool_decide (digit n = LF) = false.
Proof.
  apply bool_decide_eq_false_2. intros H.
  apply (f_equal nat_of_ascii) in H. rewrite nat_of_digit in H.
  change (nat_of_ascii LF) with 10%nat in H. lia.
Qed.

(** A year between 1000 and 9999 prints as its four digits. *)
Lemma decimal_four_digits y :
  (1000 <= Z.of_nat y <= 9999)%Z →
  decimal y =
  String (digit (y / 10 / 10 / 10))
    (String (digit (y / 10 / 10)) (String (digit (y / 10)) (String (digit y) ""))).
Proof.
  intros Hy. unfold decimal.
  pose proof (div10_facts y). pose proof (div10_facts (y / 10)).
  pose proof (div10_facts (y / 10 / 10)).
  pose proof (div10_facts (y / 10 / 10 / 10)).
  assert (∃ fuel, S y = S (S (S (S fuel)))) as [fuel ->].
  { destruct y as [|[|[|y']]]; [lia..|]. by eexists. }
  cbn [decimal_go].
  rewrite (proj2 (Nat.eqb_neq (y / 10) 0)) by lia.
  rewrite (proj2 (Nat.eqb_neq (y / 10 / 10) 0)) by lia.
  rewrite (proj2 (Nat.eqb_neq (y / 10 / 10 / 10) 0)) by lia.
  by rewrite (proj2 (Nat.eqb_eq (y / 10 / 10 / 10 / 10) 0)) by lia.
Qed.

Lemma match_atoms_literal lit pat t :
  match_atoms (literal lit ++ pat) (lit +:+ t) = match_atoms pat t.
Proof.
  induction lit as [|c lit IH]; [done|].
  rewrite string_app_cons. unfold literal in *.
  cbn [list_ascii_of_string map app match_atoms].
  by rewrite bool_decide_eq_true_2.
Qed.

Lemma match_atoms_literal_end lit t :
  match_atoms (literal lit) (lit +:+ t) = Some t.
Proof.
  rewrite <- (app_nil_r (literal lit)). apply match_atoms_literal.
Qed.

Lemma match_atoms_pad2 n pat t :
  match_atoms (repeat Digit 2 ++ pat) (pad2 n +:+ t) = match_atoms pat t.
Proof.
  unfold pad2. rewrite !string_app_cons.
  cbn [repeat app match_atoms]. by rewrite !is_digit_digit.
Qed.

Lemma match_atoms_year y pat t :
  (1000 <= Z.of_nat y <= 9999)%Z →
  match_atoms (repeat Digit 4 ++ pat) (decimal y +:+ t) = match_atoms pat t.
Proof.
  intros Hy. rewrite decimal_four_digits by done.
  rewrite !string_app_cons.
  cbn [repeat app match_atoms]. by rewrite !is_digit_digit.
Qed.

Lemma dot_star_end_no_LF s : no_LF s = true → dot_star_end s = true.
Proof.
  induction s as [|c s IH]; [done|]. simpl.
  destruct (bool_decide (c = LF)); [done | exact IH].
Qed.

Lemma dot_plus_end_no_LF s : s ≠ "" → no_LF s = true → dot_plus_end s = true.
Proof.
  destruct s as [|c s]; [done|]. intros _. simpl.
  destruct (bool_decide (c = LF)); [done|]. apply dot_star_end_no_LF.
Qed.

(** The timestamp and the bracket that opens the level name. *)
Lemma match_atoms_stamp t rest :
  four_digit_year t →
  match_atoms stamp_pattern ("[" +:+ strftime t +:+ "] [" +:+ rest) = Some rest.
Proof.
  intros Hy. unfold stamp_pattern, strftime.
  rewrite !string_app_assoc.
  rewrite match_atoms_literal, match_atoms_year by exact Hy.
  rewrite match_atoms_literal, match_atoms_pad2.
  rewrite match_atoms_literal, match_atoms_pad2.
  rewrite match_atoms_literal, match_atoms_pad2.
  rewrite match_atoms_literal, match_atoms_pad2.
  rewrite match_atoms_literal, match_atoms_pad2.
  apply match_atoms_literal_end.
Qed.

Section Facts.
Context `{RT : Runtime}.

(** A record of level INFO or ERROR with a four-digit year and a
    non-empty message without line feed is formatted as one line of the
    specified shape. *)
Lemma format_matches r :
  levelno r = INFO ∨ levelno r = ERROR →
  four_digit_year (localtime (created r)) →
  message r ≠ "" → no_LF (message r) = true →
  matches_line_format (format r) = true.
Proof.
  intros Hlv Hy Hne Hlf. unfold matches_line_format, format.
  rewrite match_atoms_stamp by exact Hy.
  destruct Hlv as [-> | ->].
  - change (getLevelName INFO +:+ "] " +:+ message r)
      with ("INFO] " +:+ message r).
    rewrite match_atoms_literal_end. by apply dot_plus_end_no_LF.
  - change (getLevelName ERROR +:+ "] " +:+ message r)
      with (String "E" ("RROR] " +:+ message r)).
    change (match_atoms (literal "INFO] ") (String "E" ("RROR] " +:+ message r)))
      with (@None string).
    change (String "E" ("RROR] " +:+ message r))
      with ("ERROR] " +:+ message r).
    rewrite match_atoms_literal_end. by apply dot_plus_end_no_LF.
Qed.

(** ** The logging primitives *)

Lemma sink_content_emit h r w s :
  sink_content (emit h r w) s =
  sink_content w s ++ (if decide (h_sink h = s) then [format r] else []).
Proof.
  unfold emit. destruct h as [[p|] hl]; destruct s as [q|]; simpl.
  - case_decide as Hpq.
    + injection Hpq as ->. by rewrite lookup_total_insert_eq.
    + rewrite lookup_total_insert_ne; [by rewrite app_nil_r | congruence].
  - by rewrite app_nil_r.
  - by rewrite app_nil_r.
  - done.
Qed.

Lemma emit_frame h r w :
  loggerDict (emit h r w) = loggerDict w ∧
  _logger_list (emit h r w) = _logger_list w ∧
  _instance (emit h r w) = _instance w ∧
  ticks (emit h r w) = ticks w ∧
  log_dir (emit h r w) = log_dir w ∧
  next_obj (emit h r w) = next_obj w.
Proof. unfold emit. by destruct (h_sink h). Qed.

Lemma sink_content_callHandlers hs r w s :
  sink_content (callHandlers hs r w) s =
  sink_content w s ++ repeat (format r) (hits s (levelno r) hs).
Proof.
  unfold callHandlers. revert w.
  induction hs as [|h hs IH]; intros w; simpl.
  - by rewrite app_nil_r.
  - rewrite IH. unfold reaches.
    destruct (h_level h <=? levelno r)%Z.
    + rewrite sink_content_emit, andb_true_r.
      case_decide; [rewrite bool_decide_eq_true_2 by done
                   |rewrite bool_decide_eq_false_2 by done]; simpl.
      * by rewrite <- app_assoc.
      * by rewrite app_nil_r.
    + by rewrite andb_false_r.
Qed.

Lemma callHandlers_frame hs r w :
  loggerDict (callHandlers hs r w) = loggerDict w ∧
  _logger_list (callHandlers hs r w) = _logger_list w ∧
  _instance (callHandlers hs r w) = _instance w ∧
  ticks (callHandlers hs r w) = ticks w ∧
  log_dir (callHandlers hs r w) = log_dir w ∧
  next_obj (callHandlers hs r w) = next_obj w.
Proof.
  unfold callHandlers. revert w.
  induction hs as [|h hs IH]; intros w; simpl; [done|].
  destruct (h_level h <=? levelno r)%Z; [|apply IH].
  destruct (IH (emit h r w)) as (-> & -> & -> & -> & -> & ->).
  apply emit_frame.
Qed.

(** A logging call never touches the loggers or the registry. *)
Lemma log_frame lv lg m w :
  loggerDict (log lv lg m w) = loggerDict w ∧
  _logger_list (log lv lg m w) = _logger_list w ∧
  _instance (log lv lg m w) = _instance w ∧
  log_dir (log lv lg m w) = log_dir w ∧
  next_obj (log lv lg m w) = next_obj w.
Proof.
  unfold log, time_time.
  destruct (getEffectiveLevel w lg <=? lv)%Z; [|done].
  match goal with |- context [callHandlers ?hs ?r ?w'] =>
    destruct (callHandlers_frame hs r w') as (-> & -> & -> & _ & -> & ->) end.
  done.
Qed.

Lemma handlers_of_log lv lg m w lg' :
  handlers_of (log lv lg m w) lg' = handlers_of w lg'.
Proof. unfold handlers_of. by destruct (log_frame lv lg m w) as (-> & _). Qed.

Lemma level_of_log lv lg m w lg' :
  level_of (log lv lg m w) lg' = level_of w lg'.
Proof. unfold level_of. by destruct (log_frame lv lg m w) as (-> & _). Qed.

Lemma getEffectiveLevel_log lv lg m w lg' :
  getEffectiveLevel (log lv lg m w) lg' = getEffectiveLevel w lg'.
Proof. unfold getEffectiveLevel. by rewrite level_of_log. Qed.

(** An enabled logging call reads the clock once and delivers one record
    to every handler of the logger that the level reaches. *)
Lemma log_enabled lv lg m w s :
  (getEffectiveLevel w lg <= lv)%Z →
  ticks (log lv lg m w) = S (ticks w) ∧
  sink_content (log lv lg m w) s =
    sink_content w s ++
    repeat (format {| levelno := lv; created := wall (ticks w); message := m |})
           (hits s lv (handlers_of w lg)).
Proof.
  intros Hen. unfold log, time_time.
  rewrite (proj2 (Z.leb_le _ _) Hen). split.
  - match goal with |- context [callHandlers ?hs ?r ?w'] =>
      destruct (callHandlers_frame hs r w') as (_ & _ & _ & -> & _) end.
    done.
  - rewrite sink_content_callHandlers. by destruct s.
Qed.

(** A logging call below the logger's level does nothing at all. *)
Lemma log_disabled lv lg m w :
  (lv < getEffectiveLevel w lg)%Z → log lv lg m w = w.
Proof.
  intros Hdis. unfold log.
  by rewrite (proj2 (Z.leb_gt _ _) Hdis).
Qed.

Lemma log_all_app lv lg l1 l2 w :
  log_all lv lg (l1 ++ l2) w = log_all lv lg l2 (log_all lv lg l1 w).
Proof. unfold log_all. apply fold_left_app. Qed.

Lemma log_arguments_log_all lv lg func_args w :
  log_arguments lv lg func_args w = log_all lv lg (argument_lines func_args) w.
Proof.
  unfold log_arguments, log_all, argument_lines. revert w.
  induction func_args as [|a l IH]; intros w; simpl; [done|apply IH].
Qed.

Lemma log_all_frame lv lg msgs w :
  loggerDict (log_all lv lg msgs w) = loggerDict w ∧
  _logger_list (log_all lv lg msgs w) = _logger_list w ∧
  _instance (log_all lv lg msgs w) = _instance w ∧
  log_dir (log_all lv lg msgs w) = log_dir w ∧
  next_obj (log_all lv lg msgs w) = next_obj w.
Proof.
  unfold log_all. revert w.
  induction msgs as [|m l IH]; intros w; simpl; [done|].
  destruct (IH (log lv lg m w)) as (-> & -> & -> & -> & ->).
  apply log_frame.
Qed.

Lemma log_all_enabled lv lg msgs w s :
  (getEffectiveLevel w lg <= lv)%Z →
  ticks (log_all lv lg msgs w) = (ticks w + length msgs)%nat ∧
  sink_content (log_all lv lg msgs w) s =
    sink_content w s ++
    flat_map (λ r, repeat (format r) (hits s lv (handlers_of w lg)))
             (stamp (ticks w) lv msgs).
Proof.
  unfold log_all. revert w.
  induction msgs as [|m l IH]; intros w Hen; simpl.
  - split; [lia | by rewrite app_nil_r].
  - destruct (log_enabled lv lg m w s Hen) as [Ht Hs].
    destruct (IH (log lv lg m w)) as [Ht' Hs'].
    { by rewrite getEffectiveLevel_log. }
    rewrite Ht', Hs', Ht, Hs, handlers_of_log. split; [lia|].
    by rewrite <- app_assoc.
Qed.

Lemma log_all_disabled lv lg msgs w :
  (lv < getEffectiveLevel w lg)%Z → log_all lv lg msgs w = w.
Proof.
  intros Hdis. unfold log_all.
  induction msgs as [|m l IH]; simpl; [done|].
  by rewrite log_disabled.
Qed.

(** [setLevel] changes one logger's level and nothing else. *)
Lemma sink_content_setLevel lg lv w s :
  sink_content (setLevel lg lv w) s = sink_content w s.
Proof. by destruct s. Qed.

Lemma handlers_of_setLevel lg lv w lg' :
  handlers_of (setLevel lg lv w) lg' = handlers_of w lg'.
Proof.
  unfold handlers_of, setLevel; simpl. rewrite lookup_alter.
  case_decide; subst; by destruct (loggerDict w !! _).
Qed.

Lemma level_of_setLevel lg lv w :
  level_of (setLevel lg lv w) lg =
  match loggerDict w !! lg with Some _ => lv | None => NOTSET end.
Proof.
  unfold level_of, setLevel; simpl. rewrite lookup_alter.
  rewrite decide_True by done. by destruct (loggerDict w !! lg).
Qed.

(** Once the logger is set to ERROR, an error call is enabled. *)
Lemma error_enabled_after_setLevel lg w :
  (getEffectiveLevel (setLevel lg ERROR w) lg <= ERROR)%Z.
Proof.
  unfold getEffectiveLevel. rewrite level_of_setLevel.
  by destruct (loggerDict w !! lg).
Qed.

Lemma handlers_of_at_call lg w lg' :
  handlers_of (at_call lg w) lg' = handlers_of w lg'.
Proof. apply (handlers_of_setLevel lg INFO w lg'). Qed.

Lemma registry_at_call lg w :
  _logger_list (at_call lg w) = _logger_list w ∧
  _instance (at_call lg w) = _instance w.
Proof. done. Qed.

End Facts.

(** Rewriting with the frame lemmas: what logging calls and level
    changes leave alone. *)
Create Rewrite HintDb frame.
#[export] Hint Rewrite @handlers_of_log @level_of_log @getEffectiveLevel_log
  @handlers_of_setLevel @sink_content_setLevel @handlers_of_at_call : frame.

Section Wrapper.
Context `{RT : Runtime}.

(** ** The four ways through the wrapper *)

Lemma wrapper_unregistered logger_name to_log func args kwargs w :
  _logger_list w !! logger_name = None →
  wrapper logger_name to_log func args kwargs w =
  (Raise (AttributeError "'NoneType' object has no attribute 'setLevel'"), w).
Proof. intros H. unfold wrapper. by rewrite H. Qed.

Lemma wrapper_unbindable logger_name to_log func args kwargs w logger e :
  _logger_list w !! logger_name = Some logger →
  bound_arguments func args kwargs = inl e →
  wrapper logger_name to_log func args kwargs w =
  (Raise e, setLevel logger INFO w).
Proof. intros H1 H2. unfold wrapper. by rewrite H1, H2. Qed.

Lemma wrapper_returns logger_name to_log func args kwargs w logger func_args
    result w' :
  _logger_list w !! logger_name = Some logger →
  bound_arguments func args kwargs = inr func_args →
  fn_code func args kwargs (at_call logger w) = (Return result, w') →
  wrapper logger_name to_log func args kwargs w =
  (Return result,
   log_all INFO logger
     (success_messages func func_args (wall (ticks w)) (wall (ticks w'))
        result to_log)
     (time_time w').2).
Proof.
  intros H1 H2 H3. unfold wrapper. rewrite H1, H2.
  unfold at_call in H3. simpl in *. rewrite H3. f_equal.
  unfold success_messages.
  rewrite !log_all_app, <- log_arguments_log_all. unfold info. simpl.
  destruct to_log as [s|]; [|done]. by case_decide.
Qed.

Lemma wrapper_raises logger_name to_log func args kwargs w logger func_args
    e w' :
  _logger_list w !! logger_name = Some logger →
  bound_arguments func args kwargs = inr func_args →
  fn_code func args kwargs (at_call logger w) = (Raise e, w') →
  exn_is_Exception e = true →
  wrapper logger_name to_log func args kwargs w =
  (Raise e,
   log_all ERROR logger (error_messages func func_args e)
     (setLevel logger ERROR w')).
Proof.
  intros H1 H2 H3 H4. unfold wrapper. rewrite H1, H2.
  unfold at_call in H3. simpl in *. rewrite H3, H4. f_equal.
  unfold error_messages.
  by rewrite !log_all_app, <- log_arguments_log_all.
Qed.

Lemma wrapper_passes logger_name to_log func args kwargs w logger func_args
    e w' :
  _logger_list w !! logger_name = Some logger →
  bound_arguments func args kwargs = inr func_args →
  fn_code func args kwargs (at_call logger w) = (Raise e, w') →
  exn_is_Exception e = false →
  wrapper logger_name to_log func args kwargs w = (Raise e, w').
Proof.
  intros H1 H2 H3 H4. unfold wrapper. rewrite H1, H2.
  unfold at_call in H3. simpl in *. by rewrite H3, H4.
Qed.

(** ** Paths and the standard handlers *)

Lemma list_ascii_of_string_app s t :
  list_ascii_of_string (s +:+ t) =
  list_ascii_of_string s ++ list_ascii_of_string t.
Proof.
  induction s as [|c s IH]; [done|].
  change (String c s +:+ t) with (String c (s +:+ t)). simpl. by rewrite IH.
Qed.

(** No info file is an error file: five characters from the end the one
    has an [o] and the other an [r]. *)
Lemma info_path_ne_error_path n m : info_path n ≠ error_path m.
Proof.
  unfold info_path, error_path. intros H.
  apply (inj (String.app "log/")) in H.
  apply (f_equal list_ascii_of_string) in H.
  rewrite !list_ascii_of_string_app in H. simpl in H.
  change (list_ascii_of_string n ++ ["_";"i";"n";"f";"o";".";"l";"o";"g"]%char)
    with (list_ascii_of_string n ++ ["_";"i";"n";"f"]%char ++ ["o";".";"l";"o";"g"]%char) in H.
  change (list_ascii_of_string m ++ ["_";"e";"r";"r";"o";"r";".";"l";"o";"g"]%char)
    with (list_ascii_of_string m ++ ["_";"e";"r";"r";"o"]%char ++ ["r";".";"l";"o";"g"]%char) in H.
  rewrite !app_assoc in H.
  apply app_inj_2 in H as [_ H]; [discriminate|done].
Qed.

Lemma info_path_inj : Inj (=) (=) info_path.
Proof.
  intros n m H. unfold info_path in H.
  apply (inj (String.app "log/")) in H.
  apply (f_equal list_ascii_of_string) in H.
  rewrite !list_ascii_of_string_app in H.
  apply app_inj_2 in H as [H _]; [|done].
  rewrite <- (string_of_list_ascii_of_string n), H.
  apply string_of_list_ascii_of_string.
Qed.

Lemma error_path_inj : Inj (=) (=) error_path.
Proof.
  intros n m H. unfold error_path in H.
  apply (inj (String.app "log/")) in H.
  apply (f_equal list_ascii_of_string) in H.
  rewrite !list_ascii_of_string_app in H.
  apply app_inj_2 in H as [H _]; [|done].
  rewrite <- (string_of_list_ascii_of_string n), H.
  apply string_of_list_ascii_of_string.
Qed.

Lemma info_sink_ne_error_sink n m :
  FileSink (info_path n) ≠ FileSink (error_path m).
Proof.
  intros H. apply (info_path_ne_error_path n m).
  exact (f_equal (λ s, match s with FileSink p => p | ConsoleSink => "" end) H).
Qed.

(** Where the records of a logger wired by [__new__] go. *)
Lemma hits_std_error_file console name :
  hits (FileSink (error_path name)) ERROR (std_handlers console name) = 1%nat.
Proof.
  unfold std_handlers, hits, reaches; simpl.
  rewrite bool_decide_eq_false_2 by apply info_sink_ne_error_sink.
  rewrite bool_decide_eq_true_2 by done.
  by destruct console.
Qed.

Lemma hits_std_info_file console name lv :
  (INFO <= lv)%Z →
  hits (FileSink (info_path name)) lv (std_handlers console name) = 1%nat.
Proof.
  intros Hlv. unfold std_handlers, hits, reaches; simpl.
  rewrite bool_decide_eq_true_2 by done.
  rewrite (bool_decide_eq_false_2 (FileSink (error_path name) = _))
    by (intros H; symmetry in H; by apply info_sink_ne_error_sink in H).
  rewrite (proj2 (Z.leb_le _ _) Hlv).
  by destruct console.
Qed.

Lemma hits_std_below_error console name lv other :
  (lv < ERROR)%Z →
  hits (FileSink (error_path other)) lv (std_handlers console name) = 0%nat.
Proof.
  intros Hlv. unfold std_handlers, hits, reaches; simpl.
  rewrite bool_decide_eq_false_2 by apply info_sink_ne_error_sink.
  rewrite (proj2 (Z.leb_gt _ _) Hlv), andb_false_r.
  by destruct console.
Qed.

Lemma flat_map_repeat_once {A B} (f : A → B) (l : list A) :
  flat_map (λ x, repeat (f x) 1) l = map f l.
Proof. induction l as [|x l IH]; simpl; [done | f_equal; exact IH]. Qed.

Lemma flat_map_repeat_none {A B} (f : A → B) (l : list A) :
  flat_map (λ x, repeat (f x) 0) l = [].
Proof. by induction l. Qed.

(** ** Construction *)

Lemma handlers_of_getLogger name w lg :
  handlers_of (getLogger name w) lg = handlers_of w lg.
Proof.
  unfold handlers_of, getLogger.
  destruct (loggerDict w !! name) eqn:Hn; [done|]. simpl.
  destruct (decide (name = lg)) as [->|Hne].
  - by rewrite lookup_insert_eq, Hn.
  - by rewrite lookup_insert_ne.
Qed.

Lemma getLogger_exists name w : is_Some (loggerDict (getLogger name w) !! name).
Proof.
  unfold getLogger. destruct (loggerDict w !! name) eqn:Hn; [by rewrite Hn|].
  simpl. by rewrite lookup_insert_eq.
Qed.

Lemma handlers_of_addHandler name h w lg :
  is_Some (loggerDict w !! name) →
  handlers_of (addHandler name h w) lg =
  handlers_of w lg ++ (if decide (lg = name) then [h] else []).
Proof.
  intros [L HL]. unfold handlers_of, addHandler; simpl.
  rewrite lookup_alter. destruct (decide (lg = name)) as [->|Hne].
  - rewrite decide_True by done. by rewrite HL.
  - rewrite decide_False by done. by rewrite app_nil_r.
Qed.

Lemma addHandler_exists name h w lg :
  is_Some (loggerDict w !! lg) → is_Some (loggerDict (addHandler name h w) !! lg).
Proof.
  intros [L HL]. unfold addHandler; simpl. rewrite lookup_alter.
  case_decide; subst; rewrite HL; by eexists.
Qed.

Lemma open_append_loggerDict path w :
  loggerDict (open_append path w) = loggerDict w.
Proof. unfold open_append. by destruct (files w !! path). Qed.

(** One turn of the loop registers the name and appends the three (or
    two) handlers to its logger. *)
Lemma setup_logger_handlers console w name lg :
  handlers_of (setup_logger console w name) lg =
  handlers_of w lg ++ (if decide (lg = name) then std_handlers console name else []).
Proof.
  unfold setup_logger.
  set (w1 := set_logger_list _ (getLogger name w)).
  assert (E1 : is_Some (loggerDict (open_append (info_path name) w1) !! name)).
  { rewrite open_append_loggerDict. apply getLogger_exists. }
  set (w2 := addHandler name (info_handler name) _) in *.
  assert (E2 : is_Some (loggerDict (open_append (error_path name) w2) !! name)).
  { rewrite open_append_loggerDict. by apply addHandler_exists. }
  set (w3 := addHandler name (error_handler name) _) in *.
  assert (E3 : is_Some (loggerDict w3 !! name)) by by apply addHandler_exists.
  assert (H3 : handlers_of w3 lg =
    handlers_of w lg ++
    (if decide (lg = name) then [info_handler name; error_handler name] else [])).
  { unfold w3. rewrite handlers_of_addHandler by done.
    unfold handlers_of at 1. rewrite open_append_loggerDict.
    fold (handlers_of w2 lg). unfold w2.
    rewrite handlers_of_addHandler by done.
    unfold handlers_of at 1. rewrite open_append_loggerDict.
    change (loggerDict w1) with (loggerDict (getLogger name w)).
    fold (handlers_of (getLogger name w) lg). rewrite handlers_of_getLogger.
    case_decide; by rewrite <- app_assoc. }
  unfold std_handlers. destruct console.
  - rewrite handlers_of_addHandler, H3 by done.
    case_decide; by rewrite <- app_assoc.
  - rewrite H3. case_decide; [by rewrite app_nil_r | done].
Qed.

Lemma setup_logger_registry console w name :
  _logger_list (setup_logger console w name) = <[name := name]> (_logger_list w).
Proof.
  unfold setup_logger, getLogger, open_append, addHandler, set_logger_list.
  destruct console;
    repeat (match goal with
            | |- context [match ?m !! ?k with _ => _ end] => destruct (m !! k)
            end; simpl); done.
Qed.

Lemma setup_logger_identity console w name :
  _instance (setup_logger console w name) = _instance w ∧
  next_obj (setup_logger console w name) = next_obj w.
Proof.
  unfold setup_logger, getLogger, open_append, addHandler, set_logger_list.
  destruct console;
    repeat (match goal with
            | |- context [match ?m !! ?k with _ => _ end] => destruct (m !! k)
            end; simpl); done.
Qed.

Lemma setup_loop_identity console names w :
  _instance (fold_left (setup_logger console) names w) = _instance w.
Proof.
  revert w. induction names as [|n l IH]; intros w; simpl; [done|].
  rewrite IH. apply setup_logger_identity.
Qed.

Lemma setup_loop_registry console names w :
  dom (_logger_list (fold_left (setup_logger console) names w)) =
  list_to_set names ∪ dom (_logger_list w).
Proof.
  revert w. induction names as [|n l IH]; intros w; cbn [fold_left].
  - by rewrite list_to_set_nil, (left_id_L ∅ (∪)).
  - rewrite IH, setup_logger_registry, dom_insert_L, list_to_set_cons.
    apply set_eq; intros x.
    rewrite !elem_of_union, elem_of_singleton. tauto.
Qed.

Lemma setup_loop_lookup console names w name :
  _logger_list (fold_left (setup_logger console) names w) !! name =
  if decide (name ∈ names) then Some name else _logger_list w !! name.
Proof.
  revert w. induction names as [|n l IH]; intros w; cbn [fold_left].
  - rewrite decide_False; [done | apply not_elem_of_nil].
  - rewrite IH, setup_logger_registry.
    destruct (decide (name ∈ l)) as [Hin|Hnin].
    + rewrite decide_True; [done | by right].
    + destruct (decide (name = n)) as [->|Hne].
      * rewrite lookup_insert_eq, decide_True; [done | by left].
      * rewrite lookup_insert_ne by done.
        rewrite decide_False; [done|]. by intros [?|?]%elem_of_cons.
Qed.

Lemma setup_loop_handlers console names w lg :
  handlers_of (fold_left (setup_logger console) names w) lg =
  handlers_of w lg ++
  flat_map (λ n, if decide (lg = n) then std_handlers console n else []) names.
Proof.
  revert w. induction names as [|n l IH]; intros w; simpl.
  - by rewrite app_nil_r.
  - by rewrite IH, setup_logger_handlers, <- app_assoc.
Qed.

(** A second construction finds the instance and does nothing. *)
Lemma new_again names console w i :
  _instance w = Some i → __new__ names console w = (i, w).
Proof. intros H. unfold __new__. by rewrite H. Qed.

Lemma new_sets_instance names console w :
  _instance (__new__ names console w).2 = Some (__new__ names console w).1.
Proof.
  unfold __new__. destruct (_instance w) eqn:Hi; [done|]. simpl.
  rewrite setup_loop_identity. by destruct (log_dir w).
Qed.

(** The first construction in a process registers exactly its names, and
    gives the logger of a name listed once, and without handlers before,
    exactly the standard handlers. *)
Lemma new_first_registry names console w name :
  _instance w = None →
  _logger_list (__new__ names console w).2 !! name =
  if decide (name ∈ names) then Some name else _logger_list w !! name.
Proof.
  intros H. unfold __new__. rewrite H. simpl.
  rewrite setup_loop_lookup. by destruct (log_dir w).
Qed.

Lemma new_first_wires names console w name :
  _instance w = None → NoDup names → name ∈ names →
  handlers_of w name = [] →
  handlers_of (__new__ names console w).2 name = std_handlers console name.
Proof.
  intros H Hnd Hin Hno. unfold __new__. rewrite H. simpl.
  rewrite setup_loop_handlers.
  assert (Hw : ∀ w', loggerDict w' = loggerDict w → handlers_of w' name = [])
    by (intros w' Hw'; unfold handlers_of; rewrite Hw'; exact Hno).
  rewrite Hw by by destruct (log_dir w). simpl.
  clear H Hno Hw. induction Hnd as [|n l Hn Hnd IH]; [by apply elem_of_nil in Hin|].
  simpl. apply elem_of_cons in Hin as [->|Hin].
  - rewrite decide_True by done.
    assert (flat_map (λ m, if decide (n = m) then std_handlers console m else []) l = []) as ->.
    { clear IH Hnd. induction l as [|m l IHl]; [done|]. simpl.
      rewrite decide_False by (intros ->; apply Hn; by left).
      apply IHl. intros ?; apply Hn; by right. }
    by rewrite app_nil_r.
  - rewrite decide_False by (intros ->; by apply Hn). by apply IH.
Qed.

Lemma run_new_registry calls w name :
  _logger_list w !! name = None →
  (∀ c, c ∈ calls → name ∉ c.1) →
  _logger_list (run_new calls w) !! name = None.
Proof.
  unfold run_new. revert w.
  induction calls as [|c l IH]; intros w Hw Hc; simpl; [done|].
  apply IH; [|intros c' Hc'; apply Hc; by right].
  unfold __new__. destruct (_instance w); [done|]. simpl.
  rewrite setup_loop_lookup.
  rewrite decide_False by (apply Hc; by left).
  by destruct (log_dir w).
Qed.

(** ** What a wrapped call writes *)

Lemma stamp_spec t lv msgs :
  Forall (λ r, levelno r = lv ∧ message r ∈ msgs) (stamp t lv msgs).
Proof.
  revert t. induction msgs as [|m l IH]; intros t; simpl; constructor.
  - split; [done | by left].
  - eapply Forall_impl; [apply IH|]. intros r [? ?]. split; [done | by right].
Qed.

Lemma flat_map_repeat_format k (l : list LogRecord) :
  flat_map (λ r, repeat (format r) k) l =
  map format (flat_map (λ r, repeat r k) l).
Proof.
  induction l as [|r l IH]; simpl; [done|].
  rewrite map_app, IH. f_equal.
  clear. induction k; simpl; congruence.
Qed.

Lemma Forall_flat_map_repeat (P : LogRecord → Prop) k l :
  Forall P l → Forall P (flat_map (λ r, repeat r k) l).
Proof.
  induction 1 as [|r l Hr Hl IH]; simpl; [constructor|].
  apply Forall_app; split; [|exact IH].
  clear -Hr. induction k; simpl; by constructor.
Qed.

(** Every sink, after the call, holds what it held when [func] came back
    plus formatted records of the kind [wrapper_record] allows; and the
    wrapper's outcome is the outcome of [func]. *)
Lemma wrapper_gain logger_name to_log func args kwargs w logger func_args
    out w' s :
  _logger_list w !! logger_name = Some logger →
  bound_arguments func args kwargs = inr func_args →
  fn_code func args kwargs (at_call logger w) = (out, w') →
  (wrapper logger_name to_log func args kwargs w).1 = out ∧
  ∃ rs,
    sink_content (wrapper logger_name to_log func args kwargs w).2 s =
      sink_content w' s ++ map format rs ∧
    Forall (wrapper_record func func_args (wall (ticks w)) (wall (ticks w'))
              to_log out) rs.
Proof.
  intros Hreg Hbind Hcall. destruct out as [result|e].
  - rewrite (wrapper_returns logger_name to_log func args kwargs w logger
               func_args result w' Hreg Hbind Hcall).
    split; [done|]. cbn [fst snd].
    set (msgs := success_messages _ _ _ _ _ _).
    set (w1 := (time_time w').2).
    destruct (Z_le_gt_dec (getEffectiveLevel w1 logger) INFO) as [Hen|Hdis].
    + destruct (log_all_enabled INFO logger msgs w1 s Hen) as [_ ->].
      rewrite flat_map_repeat_format. eexists; split.
      * by destruct s.
      * apply Forall_flat_map_repeat.
        eapply Forall_impl; [apply stamp_spec|]. by intros r [? ?].
    + rewrite log_all_disabled by lia. exists []. split; [|constructor].
      rewrite app_nil_r. by destruct s.
  - destruct (exn_is_Exception e) eqn:Hexc.
    + rewrite (wrapper_raises logger_name to_log func args kwargs w logger
                 func_args e w' Hreg Hbind Hcall Hexc).
      split; [done|]. cbn [fst snd].
      set (msgs := error_messages _ _ _).
      destruct (log_all_enabled ERROR logger msgs (setLevel logger ERROR w') s
                  (error_enabled_after_setLevel logger w')) as [_ ->].
      rewrite flat_map_repeat_format, sink_content_setLevel.
      eexists; split; [done|].
      apply Forall_flat_map_repeat.
      eapply Forall_impl; [apply stamp_spec|]. by intros r [? ?].
    + rewrite (wrapper_passes logger_name to_log func args kwargs w logger
                 func_args e w' Hreg Hbind Hcall Hexc).
      split; [done|]. exists []. split; [by rewrite app_nil_r | constructor].
Qed.

Lemma handlers_of_log_all lv lg msgs w lg' :
  handlers_of (log_all lv lg msgs w) lg' = handlers_of w lg'.
Proof. unfold handlers_of. by destruct (log_all_frame lv lg msgs w) as (-> & _). Qed.

(** The wrapper's own steps leave the registry, the instance and every
    logger's handlers as [func] left them. *)
Lemma wrapper_frame logger_name to_log func args kwargs w logger func_args
    out w' :
  _logger_list w !! logger_name = Some logger →
  bound_arguments func args kwargs = inr func_args →
  fn_code func args kwargs (at_call logger w) = (out, w') →
  _logger_list (wrapper logger_name to_log func args kwargs w).2 = _logger_list w' ∧
  _instance (wrapper logger_name to_log func args kwargs w).2 = _instance w' ∧
  ∀ lg, handlers_of (wrapper logger_name to_log func args kwargs w).2 lg =
        handlers_of w' lg.
Proof.
  intros Hreg Hbind Hcall. destruct out as [result|e].
  - rewrite (wrapper_returns logger_name to_log func args kwargs w logger
               func_args result w' Hreg Hbind Hcall). cbn [snd].
    match goal with |- context [log_all ?lv ?lg ?msgs ?w0] =>
      destruct (log_all_frame lv lg msgs w0) as (_ & -> & -> & _) end.
    repeat split. intros lg. by rewrite handlers_of_log_all.
  - destruct (exn_is_Exception e) eqn:Hexc.
    + rewrite (wrapper_raises logger_name to_log func args kwargs w logger
                 func_args e w' Hreg Hbind Hcall Hexc). cbn [snd].
      match goal with |- context [log_all ?lv ?lg ?msgs ?w0] =>
        destruct (log_all_frame lv lg msgs w0) as (_ & -> & -> & _) end.
      repeat split. intros lg.
      rewrite handlers_of_log_all. by autorewrite with frame.
    + by rewrite (wrapper_passes logger_name to_log func args kwargs w logger
                    func_args e w' Hreg Hbind Hcall Hexc).
Qed.

(** Calling a [pure_def] function: the arguments are bound and the body
    decides; the process is not touched. *)
Lemma pure_def_call name params body args kwargs w :
  fn_code (pure_def name params body) args kwargs w =
  (match bound_arguments (pure_def name params body) args kwargs with
   | inl e => Raise e
   | inr func_args => body func_args
   end, w).
Proof.
  unfold bound_arguments. simpl. by destruct (bind params args kwargs).
Qed.

Lemma bind_keywords_TypeError ps kwargs e :
  bind_keywords ps kwargs = inl e → exn_type e = "TypeError".
Proof.
  revert kwargs. induction ps as [|p ps IH]; intros kwargs; simpl.
  - destruct kwargs as [|[k v] ?]; [done|]. by intros [= <-].
  - destruct (kw_get (p_name p) kwargs).
    + destruct (bind_keywords ps _) eqn:Hb; [|done].
      intros [= <-]. by eapply IH.
    + destruct (p_default p); [apply IH|]. by intros [= <-].
Qed.

Lemma bind_TypeError ps args kwargs e :
  bind ps args kwargs = inl e → exn_type e = "TypeError".
Proof.
  revert ps. induction args as [|a args IH]; intros ps; simpl.
  - apply bind_keywords_TypeError.
  - destruct ps as [|p ps]; [by intros [= <-]|].
    destruct (kw_get (p_name p) kwargs); [by intros [= <-]|].
    destruct (bind ps args kwargs) eqn:Hb; [|done].
    intros [= <-]. by eapply IH.
Qed.

Lemma bound_arguments_TypeError func args kwargs e :
  bound_arguments func args kwargs = inl e → exn_type e = "TypeError".
Proof.
  unfold bound_arguments.
  destruct (bind (fn_params func) args kwargs) eqn:Hb; [|done].
  intros [= <-]. by eapply bind_TypeError.
Qed.

(** The sinks after a call in which [func] raised an [Exception]. *)
Lemma wrapper_raises_sink logger_name to_log func args kwargs w logger
    func_args e w' s :
  _logger_list w !! logger_name = Some logger →
  bound_arguments func args kwargs = inr func_args →
  fn_code func args kwargs (at_call logger w) = (Raise e, w') →
  exn_is_Exception e = true →
  sink_content (wrapper logger_name to_log func args kwargs w).2 s =
  sink_content w' s ++
  flat_map (λ r, repeat (format r) (hits s ERROR (handlers_of w' logger)))
           (stamp (ticks w') ERROR (error_messages func func_args e)).
Proof.
  intros Hreg Hbind Hcall Hexc.
  rewrite (wrapper_raises logger_name to_log func args kwargs w logger
             func_args e w' Hreg Hbind Hcall Hexc). cbn [snd].
  destruct (log_all_enabled ERROR logger (error_messages func func_args e)
              (setLevel logger ERROR w') s
              (error_enabled_after_setLevel logger w')) as [_ ->].
  by autorewrite with frame.
Qed.

(** The sinks after a call in which [func] returned, when the logger is
    still enabled for INFO at that moment. *)
Lemma wrapper_returns_sink logger_name to_log func args kwargs w logger
    func_args result w' s :
  _logger_list w !! logger_name = Some logger →
  bound_arguments func args kwargs = inr func_args →
  fn_code func args kwargs (at_call logger w) = (Return result, w') →
  (getEffectiveLevel w' logger <= INFO)%Z →
  sink_content (wrapper logger_name to_log func args kwargs w).2 s =
  sink_content w' s ++
  flat_map (λ r, repeat (format r) (hits s INFO (handlers_of w' logger)))
           (stamp (S (ticks w')) INFO
              (success_messages func func_args (wall (ticks w))
                 (wall (ticks w')) result to_log)).
Proof.
  intros Hreg Hbind Hcall Hen.
  rewrite (wrapper_returns logger_name to_log func args kwargs w logger
             func_args result w' Hreg Hbind Hcall). cbn [snd].
  match goal with |- context [log_all ?lv ?lg ?msgs ?w0] =>
    destruct (log_all_enabled lv lg msgs w0 s Hen) as [_ ->] end.
  by destruct s.
Qed.

(** ... and when it is not: the call leaves no trace. *)
Lemma wrapper_returns_silent logger_name to_log func args kwargs w logger
    func_args result w' :
  _logger_list w !! logger_name = Some logger →
  bound_arguments func args kwargs = inr func_args →
  fn_code func args kwargs (at_call logger w) = (Return result, w') →
  (INFO < getEffectiveLevel w' logger)%Z →
  wrapper logger_name to_log func args kwargs w =
  (Return result, (time_time w').2).
Proof.
  intros Hreg Hbind Hcall Hdis.
  rewrite (wrapper_returns logger_name to_log func args kwargs w logger
             func_args result w' Hreg Hbind Hcall).
  by rewrite log_all_disabled.
Qed.

(** On a normal return with the logger still at INFO and carrying the
    handlers of [__new__], the info file gains the records of lines
    72-81 in the order of the calls, and the error file gains nothing. *)
Lemma success_records_in_order logger_name to_log func args kwargs w
    func_args result w' console :
  _logger_list w !! logger_name = Some logger_name →
  bound_arguments func args kwargs = inr func_args →
  fn_code func args kwargs (at_call logger_name w) = (Return result, w') →
  (getEffectiveLevel w' logger_name <= INFO)%Z →
  handlers_of w' logger_name = std_handlers console logger_name →
  files (wrapper logger_name to_log func args kwargs w).2
    !!! info_path logger_name =
  files w' !!! info_path logger_name ++
  map format
    (stamp (S (ticks w')) INFO
       (["Calling function: " +:+ fn_name func +:+ " | Execution time: " +:+
           fmt_elapsed (wall (ticks w)) (wall (ticks w')) +:+ " seconds";
         "Arguments:"] ++
        map (λ a, a.1 +:+ ": " +:+ str_of a.2) func_args ++
        ["Result: " +:+ str_of result] ++
        match to_log with
        | Some s => if decide (s = "") then [] else ["Additinal message: " +:+ s]
        | None => []
        end)) ∧
  files (wrapper logger_name to_log func args kwargs w).2
    !!! error_path logger_name =
  files w' !!! error_path logger_name.
Proof.
  intros Hreg Hbind Hcall Hen Hwired. split.
  - pose proof (wrapper_returns_sink logger_name to_log func args kwargs w
                  logger_name func_args result w'
                  (FileSink (info_path logger_name))
                  Hreg Hbind Hcall Hen) as Hs.
    cbn [sink_content] in Hs. rewrite Hs, Hwired.
    rewrite hits_std_info_file by done. by rewrite flat_map_repeat_once.
  - pose proof (wrapper_returns_sink logger_name to_log func args kwargs w
                  logger_name func_args result w'
                  (FileSink (error_path logger_name))
                  Hreg Hbind Hcall Hen) as Hs.
    cbn [sink_content] in Hs. rewrite Hs, Hwired.
    rewrite hits_std_below_error by done.
    by rewrite flat_map_repeat_none, app_nil_r.
Qed.

(** A pure function leaves the logger at the INFO level the wrapper gave
    it. *)
Lemma at_call_enabled console logger w :
  handlers_of w logger = std_handlers console logger →
  (getEffectiveLevel (at_call logger w) logger <= INFO)%Z ∧
  handlers_of (at_call logger w) logger = std_handlers console logger.
Proof.
  intros Hwired. split.
  - unfold getEffectiveLevel, at_call, level_of, handlers_of in *. simpl.
    rewrite lookup_alter, decide_True by done.
    destruct (loggerDict w !! logger); [done|].
    by destruct console.
  - by autorewrite with frame.
Qed.

Lemma hits_attached_below_error lg lv other hs :
  Forall (attached_by_new lg) hs → (lv < ERROR)%Z →
  hits (FileSink (error_path other)) lv hs = 0%nat.
Proof.
  intros Hhs Hlv. induction Hhs as [|h hs Hh _ IH]; [done|].
  cbn [hits]. rewrite IH.
  destruct Hh as [-> | [-> | ->]]; unfold reaches; cbn [h_sink h_level
    info_handler error_handler console_handler].
  - by rewrite bool_decide_eq_false_2 by apply info_sink_ne_error_sink.
  - by rewrite (proj2 (Z.leb_gt _ _) Hlv), andb_false_r.
  - by rewrite bool_decide_eq_false_2.
Qed.

Lemma std_handlers_attached console lg :
  Forall (attached_by_new lg) (std_handlers console lg).
Proof.
  unfold std_handlers, attached_by_new.
  destruct console; cbn [app]; repeat apply Forall_cons_2;
    try apply Forall_nil_2; auto.
Qed.

Lemma no_LF_app s t : no_LF (s +:+ t) = no_LF s && no_LF t.
Proof.
  induction s as [|c s IH]; [done|].
  rewrite string_app_cons. cbn [no_LF]. by rewrite IH, andb_assoc.
Qed.

(** A formatted traceback always spans several lines. *)
Lemma traceback_multiline e : no_LF ("Traceback: " +:+ format_exc e) = false.
Proof.
  unfold format_exc. rewrite !no_LF_app.
  change (no_LF nl) with false.
  by rewrite andb_false_l, !andb_false_r.
Qed.

Lemma argument_lines_nonempty func_args m :
  m ∈ argument_lines func_args → m ≠ "".
Proof.
  unfold argument_lines. intros ([n v] & -> & _)%list_elem_of_fmap. simpl.
  by destruct n.
Qed.

Lemma success_messages_nonempty func func_args t0 t1 result to_log m :
  m ∈ success_messages func func_args t0 t1 result to_log → m ≠ "".
Proof.
  unfold success_messages.
  rewrite !elem_of_app, !elem_of_cons.
  intros [[->| [->|[]%elem_of_nil]] | [Hm | [[->|[]%elem_of_nil] | Hm]]];
    try done.
  - by apply argument_lines_nonempty in Hm.
  - destruct to_log as [a|]; [|by apply elem_of_nil in Hm].
    case_decide; [by apply elem_of_nil in Hm|].
    by apply list_elem_of_singleton in Hm as ->.
Qed.

Lemma error_messages_nonempty func func_args e m :
  m ∈ error_messages func func_args e → m ≠ "".
Proof.
  unfold error_messages.
  rewrite !elem_of_app, !elem_of_cons.
  intros [[->| [->| [->|[]%elem_of_nil]]] | [Hm | [->|[]%elem_of_nil]]];
    try done.
  by apply argument_lines_nonempty in Hm.
Qed.

End Wrapper.

(** * The claims *)

Section Claims.
Context `{RT : Runtime}.

(** ** C1: non-interference *)


(** ** C3: idempotent construction *)


(** ** C4: unregistered names *)

(** C4.  When the name was passed to no construction call, the wrapped
    call raises the error of using the missing logger (in Python the
    [AttributeError] of [None.setLevel]), and that is all it does: the
    process is unchanged, so no logger was substituted and nothing was
    logged, and the result does not depend on the wrapped function, which
    is never called. *)
Theorem unregistered_name_fails calls w0 logger_name to_log func args kwargs :
  _logger_list w0 !! logger_name = None →
  (∀ c, c ∈ calls → logger_name ∉ c.1) →
  let w := run_new calls w0 in
  wrapper logger_name to_log func args kwargs w =
    (Raise (AttributeError "'NoneType' object has no attribute 'setLevel'"), w) ∧
  ∀ other, wrapper logger_name to_log other args kwargs w =
           wrapper logger_name to_log func args kwargs w.
Proof.
  intros Hw0 Hcalls w.
  pose proof (run_new_registry calls w0 logger_name Hw0 Hcalls) as Hnone.
  split; [|intros other]; by rewrite !wrapper_unregistered.
Qed.

(** ** C2 and C6: the error path *)



(** ** C7: the two paths exclude each other *)


(** ** C8: the line format *)


(** ** C9: which file receives what *)

(** C9.  For a logger carrying the handlers of [__new__], a record
    emitted at ERROR level is appended both to [log/<name>_info.log] and
    to [log/<name>_error.log]; and no record below ERROR level, from any
    logger whose handlers were attached by [__new__], ever reaches an
    error file. *)
Theorem error_records_reach_both_files console name w m :
  handlers_of w name = std_handlers console name →
  (getEffectiveLevel w name <= ERROR)%Z →
  let line := format {| levelno := ERROR; created := wall (ticks w);
                        message := m |} in
  files (error name m w) !!! info_path name =
    files w !!! info_path name ++ [line] ∧
  files (error name m w) !!! error_path name =
    files w !!! error_path name ++ [line] ∧
  ∀ lg lv m' other,
    Forall (attached_by_new lg) (handlers_of w lg) → (lv < ERROR)%Z →
    files (log lv lg m' w) !!! error_path other = files w !!! error_path other.
Proof.
  intros Hwired Hen line. repeat split.
  - destruct (log_enabled ERROR name m w (FileSink (info_path name)) Hen)
      as [_ Hs].
    cbn [sink_content] in Hs. unfold error. rewrite Hs, Hwired.
    by rewrite hits_std_info_file.
  - destruct (log_enabled ERROR name m w (FileSink (error_path name)) Hen)
      as [_ Hs].
    cbn [sink_content] in Hs. unfold error. rewrite Hs, Hwired.
    by rewrite hits_std_error_file.
  - intros lg lv m' other Hatt Hlv.
    destruct (Z_le_gt_dec (getEffectiveLevel w lg) lv) as [Hen'|Hdis].
    + destruct (log_enabled lv lg m' w (FileSink (error_path other)) Hen')
        as [_ Hs].
      cbn [sink_content] in Hs. rewrite Hs.
      rewrite (hits_attached_below_error lg lv other _ Hatt Hlv).
      apply app_nil_r.
    + by rewrite log_disabled by lia.
Qed.

(** ** C10: arguments that do not fit *)

(** C10 (amended).  For a registered logger name, a wrapped call whose
    arguments cannot be bound to the signature raises the [TypeError] of
    the binding; no sink receives anything, and the outcome and the
    process are the same whatever the code of the wrapped function is:
    it is never run. *)
Theorem unbindable_call_not_invoked logger_name logger to_log func args
    kwargs w e :
  _logger_list w !! logger_name = Some logger →
  bind (fn_params func) args kwargs = inl e →
  let wrapped := wrapper logger_name to_log func args kwargs w in
  wrapped.1 = Raise e ∧
  exn_type e = "TypeError" ∧
  (∀ s, sink_content wrapped.2 s = sink_content w s) ∧
  (∀ code,
     wrapper logger_name to_log
       {| fn_name := fn_name func; fn_params := fn_params func;
          fn_code := code |} args kwargs w = wrapped).
Proof.
  intros Hreg Hbind wrapped.
  assert (Hb : ∀ code,
    bound_arguments {| fn_name := fn_name func; fn_params := fn_params func;
                       fn_code := code |} args kwargs = inl e).
  { intros code. unfold bound_arguments. cbn [fn_params]. by rewrite Hbind. }
  assert (Hb0 : bound_arguments func args kwargs = inl e).
  { unfold bound_arguments. by rewrite Hbind. }
  unfold wrapped.
  rewrite (wrapper_unbindable logger_name to_log func args kwargs w logger e
             Hreg Hb0).
  split; [done|]. split; [|split].
  - by eapply bind_TypeError.
  - intros s. apply sink_content_setLevel.
  - intros code.
    by rewrite (wrapper_unbindable logger_name to_log _ args kwargs w logger e
                  Hreg (Hb code)).
Qed.

End Claims.

(** * Further properties of the code *)

Section Further.
Context `{RT : Runtime}.

(** ** Construction *)

Lemma sink_content_open_append path w s :
  sink_content (open_append path w) s = sink_content w s.
Proof.
  unfold open_append. destruct (files w !! path) eqn:Hp; [done|].
  destruct s as [q|]; [|done]. simpl.
  destruct (decide (path = q)) as [<-|Hne].
  - rewrite lookup_total_insert_eq.
    by rewrite lookup_total_alt, Hp.
  - by rewrite lookup_total_insert_ne.
Qed.

Lemma open_append_exists path w q :
  is_Some (files (open_append path w) !! q) ↔
  q = path ∨ is_Some (files w !! q).
Proof.
  unfold open_append. destruct (files w !! path) eqn:Hp.
  - split; [by right|]. intros [->|?]; [by rewrite Hp | done].
  - simpl. destruct (decide (path = q)) as [<-|Hne].
    + rewrite lookup_insert_eq. split; [by left | by eexists].
    + rewrite lookup_insert_ne by done.
      split; [by right|]. by intros [->|?].
Qed.

Lemma setup_logger_sinks console w name s :
  sink_content (setup_logger console w name) s = sink_content w s.
Proof.
  unfold setup_logger.
  assert (Hadd : ∀ lg h w0, sink_content (addHandler lg h w0) s = sink_content w0 s)
    by (intros; by destruct s).
  destruct console; rewrite ?Hadd, sink_content_open_append, Hadd,
    sink_content_open_append; unfold getLogger;
    by destruct (loggerDict w !! name), s.
Qed.

Lemma setup_logger_files console w name q :
  is_Some (files (setup_logger console w name) !! q) ↔
  q = info_path name ∨ q = error_path name ∨ is_Some (files w !! q).
Proof.
  unfold setup_logger.
  assert (Hadd : ∀ lg h w0, files (addHandler lg h w0) = files w0) by done.
  assert (Hget : files (set_logger_list (<[name:=name]> (_logger_list (getLogger name w)))
                   (getLogger name w)) = files w).
  { unfold getLogger. by destruct (loggerDict w !! name). }
  assert (Hopen : ∀ p w1 w2, files w1 = files w2 →
            files (open_append p w1) = files (open_append p w2)).
  { intros p w1 w2 H12. unfold open_append. rewrite H12.
    destruct (files w2 !! p); simpl; by rewrite ?H12. }
  assert (Hall : files (addHandler name (error_handler name)
      (open_append (error_path name)
         (addHandler name (info_handler name)
            (open_append (info_path name)
               (set_logger_list (<[name:=name]> (_logger_list (getLogger name w)))
                  (getLogger name w)))))) =
    files (open_append (error_path name) (open_append (info_path name) w))).
  { rewrite Hadd. apply Hopen. rewrite Hadd. by apply Hopen. }
  destruct console; [rewrite Hadd|]; rewrite Hall, !open_append_exists; tauto.
Qed.

Lemma setup_logger_rest console w name :
  ticks (setup_logger console w name) = ticks w ∧
  log_dir (setup_logger console w name) = log_dir w ∧
  ∀ lg, level_of (setup_logger console w name) lg = level_of w lg.
Proof.
  unfold setup_logger.
  assert (Hlv : ∀ lg h w0 lg', level_of (addHandler lg h w0) lg' = level_of w0 lg').
  { intros lg h w0 lg'. unfold level_of, addHandler; simpl.
    rewrite lookup_alter. case_decide; subst; by destruct (loggerDict w0 !! _). }
  assert (Hop : ∀ p w0 lg', level_of (open_append p w0) lg' = level_of w0 lg').
  { intros p w0 lg'. unfold level_of. by rewrite open_append_loggerDict. }
  assert (Hg : ∀ lg', level_of (set_logger_list (<[name:=name]> (_logger_list (getLogger name w)))
                 (getLogger name w)) lg' = level_of w lg').
  { intros lg'. unfold level_of, getLogger. simpl.
    destruct (loggerDict w !! name) eqn:Hn; [done|]. simpl.
    destruct (decide (name = lg')) as [<-|Hne].
    - by rewrite lookup_insert_eq, Hn.
    - by rewrite lookup_insert_ne. }
  split; [|split].
  - unfold getLogger, open_append, addHandler, set_logger_list.
    destruct console;
      repeat (match goal with
              | |- context [match ?m !! ?k with _ => _ end] => destruct (m !! k)
              end; simpl); done.
  - unfold getLogger, open_append, addHandler, set_logger_list.
    destruct console;
      repeat (match goal with
              | |- context [match ?m !! ?k with _ => _ end] => destruct (m !! k)
              end; simpl); done.
  - intros lg. destruct console; by rewrite ?Hlv, ?Hop, ?Hlv, ?Hop, Hg.
Qed.

Lemma setup_loop_sinks console names w s :
  sink_content (fold_left (setup_logger console) names w) s = sink_content w s.
Proof.
  revert w. induction names as [|n l IH]; intros w; cbn [fold_left]; [done|].
  by rewrite IH, setup_logger_sinks.
Qed.

Lemma setup_loop_files console names w q :
  is_Some (files (fold_left (setup_logger console) names w) !! q) ↔
  (∃ name, name ∈ names ∧ (q = info_path name ∨ q = error_path name)) ∨
  is_Some (files w !! q).
Proof.
  revert w. induction names as [|n l IH]; intros w; cbn [fold_left].
  - split; [by right|]. intros [(name & []%elem_of_nil & _)|?]; done.
  - rewrite IH, setup_logger_files. split.
    + intros [(name & Hin & Hq)|[Hq|[Hq|Hq]]].
      * left. exists name. split; [by right | done].
      * left. exists n. split; [by left | by left].
      * left. exists n. split; [by left | by right].
      * by right.
    + intros [(name & [->|Hin]%elem_of_cons & Hq)|Hq].
      * right. destruct Hq; auto.
      * left. by exists name.
      * by right; right; right.
Qed.

Lemma setup_loop_rest console names w :
  ticks (fold_left (setup_logger console) names w) = ticks w ∧
  log_dir (fold_left (setup_logger console) names w) = log_dir w ∧
  ∀ lg, level_of (fold_left (setup_logger console) names w) lg = level_of w lg.
Proof.
  revert w. induction names as [|n l IH]; intros w; cbn [fold_left]; [done|].
  destruct (IH (setup_logger console w n)) as (-> & -> & Hl).
  destruct (setup_logger_rest console w n) as (-> & -> & Hl').
  repeat split. intros lg. by rewrite Hl, Hl'.
Qed.

Lemma flat_map_listed console name names :
  flat_map (λ n, if decide (name = n) then std_handlers console n else []) names =
  concat (repeat (std_handlers console name) (listed name names)).
Proof.
  unfold listed. induction names as [|n l IH]; [done|].
  cbn [flat_map]. rewrite filter_cons.
  destruct (decide (name = n)) as [<-|Hne].
  - rewrite decide_True by done. cbn [length repeat concat].
    by rewrite IH.
  - rewrite decide_False by done. by rewrite IH.
Qed.

Lemma first_construction_wires_aux names console w name :
  _instance w = None →
  handlers_of (__new__ names console w).2 name =
    handlers_of w name ++
    concat (repeat (std_handlers console name) (listed name names)) ∧
  level_of (__new__ names console w).2 name = level_of w name.
Proof.
  intros Hnone. unfold __new__. rewrite Hnone. cbn [snd].
  set (w0 := if log_dir _ then _ else _).
  assert (Hw0 : loggerDict w0 = loggerDict w)
    by (unfold w0; simpl; by destruct (log_dir w)).
  split.
  - rewrite setup_loop_handlers, flat_map_listed.
    unfold handlers_of at 1. by rewrite Hw0.
  - destruct (setup_loop_rest console names w0) as (_ & _ & ->).
    unfold level_of. by rewrite Hw0.
Qed.

Lemma construction_quiet_aux names console w :
  _instance w = None →
  (∀ s, sink_content (__new__ names console w).2 s = sink_content w s) ∧
  ticks (__new__ names console w).2 = ticks w.
Proof.
  intros Hnone. unfold __new__. rewrite Hnone. cbn [snd].
  set (w0 := if log_dir _ then _ else _).
  destruct (setup_loop_rest console names w0) as (Ht & _ & _).
  split.
  - intros s. rewrite setup_loop_sinks. unfold w0. simpl.
    by destruct (log_dir w), s.
  - rewrite Ht. unfold w0. simpl. by destruct (log_dir w).
Qed.




(** ** Handlers and sinks *)

Lemma hits_app s lv l1 l2 :
  hits s lv (l1 ++ l2) = (hits s lv l1 + hits s lv l2)%nat.
Proof. induction l1 as [|h l1 IH]; cbn [app hits]; [done | rewrite IH; lia]. Qed.

Lemma hits_concat_repeat s lv l k :
  hits s lv (concat (repeat l k)) = (k * hits s lv l)%nat.
Proof.
  induction k as [|k IH]; cbn [repeat concat]; [done|].
  rewrite hits_app, IH. lia.
Qed.

Lemma repeat_mul {A} (x : A) k : repeat x (k * 1) = repeat x k.
Proof. by rewrite Nat.mul_1_r. Qed.

Lemma info_sink_inj n m : FileSink (info_path n) = FileSink (info_path m) → n = m.
Proof.
  intros H. apply info_path_inj.
  exact (f_equal (λ s, match s with FileSink p => p | ConsoleSink => "" end) H).
Qed.

Lemma error_sink_inj n m : FileSink (error_path n) = FileSink (error_path m) → n = m.
Proof.
  intros H. apply error_path_inj.
  exact (f_equal (λ s, match s with FileSink p => p | ConsoleSink => "" end) H).
Qed.

(** The handlers of one name deliver nothing to the files of another. *)
Lemma hits_std_other console name other lv :
  other ≠ name →
  hits (FileSink (info_path other)) lv (std_handlers console name) = 0%nat ∧
  hits (FileSink (error_path other)) lv (std_handlers console name) = 0%nat.
Proof.
  intros Hne. unfold std_handlers, hits, reaches.
  cbn [app h_sink h_level info_handler error_handler console_handler].
  rewrite (bool_decide_eq_false_2 (FileSink (info_path name) = FileSink (info_path other)))
    by (intros H%info_sink_inj; congruence).
  rewrite (bool_decide_eq_false_2 (FileSink (error_path name) = FileSink (info_path other)))
    by (intros H; symmetry in H; by apply info_sink_ne_error_sink in H).
  rewrite (bool_decide_eq_false_2 (FileSink (info_path name) = FileSink (error_path other)))
    by apply info_sink_ne_error_sink.
  rewrite (bool_decide_eq_false_2 (FileSink (error_path name) = FileSink (error_path other)))
    by (intros H%error_sink_inj; congruence).
  by destruct console.
Qed.

Lemma hits_std_console console name lv :
  (DEBUG <= lv)%Z →
  hits ConsoleSink lv (std_handlers console name) = if console then 1%nat else 0%nat.
Proof.
  intros Hlv. unfold std_handlers, hits, reaches.
  destruct console;
    cbn [app h_sink h_level info_handler error_handler console_handler];
    rewrite ?(bool_decide_eq_false_2 (FileSink _ = ConsoleSink)) by done; [|done].
  rewrite bool_decide_eq_true_2 by done.
  by rewrite (proj2 (Z.leb_le _ _) Hlv).
Qed.

(** One formula for every way a call can end once [func] was run: the
    wrapper sends a list of records of one level, INFO or ERROR, through
    the handlers the logger has at that moment. *)
Lemma wrapper_sinks logger_name to_log func args kwargs w logger func_args
    out w' :
  _logger_list w !! logger_name = Some logger →
  bound_arguments func args kwargs = inr func_args →
  fn_code func args kwargs (at_call logger w) = (out, w') →
  ∃ lv rs,
    (lv = INFO ∨ lv = ERROR) ∧
    ∀ s, sink_content (wrapper logger_name to_log func args kwargs w).2 s =
         sink_content w' s ++
         flat_map (λ r, repeat (format r) (hits s lv (handlers_of w' logger))) rs.
Proof.
  intros Hreg Hbind Hcall. destruct out as [result|e].
  - destruct (Z_le_gt_dec (getEffectiveLevel w' logger) INFO) as [Hen|Hdis].
    + eexists INFO, _. split; [by left|]. intros s.
      by apply wrapper_returns_sink.
    + exists INFO, []. split; [by left|]. intros s.
      rewrite (wrapper_returns_silent logger_name to_log func args kwargs w
                 logger func_args result w' Hreg Hbind Hcall) by lia.
      cbn [snd flat_map]. rewrite app_nil_r. by destruct s.
  - destruct (exn_is_Exception e) eqn:Hexc.
    + eexists ERROR, _. split; [by right|]. intros s.
      by apply wrapper_raises_sink.
    + exists ERROR, []. split; [by right|]. intros s.
      rewrite (wrapper_passes logger_name to_log func args kwargs w
                 logger func_args e w' Hreg Hbind Hcall Hexc).
      cbn [snd flat_map]. by rewrite app_nil_r.
Qed.





(** ** What tracing preserves *)

Lemma level_of_log_all lv lg msgs w lg' :
  level_of (log_all lv lg msgs w) lg' = level_of w lg'.
Proof. unfold level_of. by destruct (log_all_frame lv lg msgs w) as (-> & _). Qed.

(** X8.  Tracing never truncates or rewrites a log: when the wrapped
    function only appends to the sinks, so does the traced function,
    whether the logger is registered or not and however the call ends. *)
Theorem tracing_is_append_only logger_name to_log func :
  append_only func → append_only (trace_call logger_name to_log func).
Proof.
  intros Hf args kwargs w s. cbn [trace_call fn_code].
  destruct (_logger_list w !! logger_name) as [logger|] eqn:Hreg.
  - destruct (bound_arguments func args kwargs) as [e|func_args] eqn:Hb.
    + rewrite (wrapper_unbindable logger_name to_log func args kwargs w
                 logger e Hreg Hb). cbn [snd].
      by rewrite sink_content_setLevel.
    + destruct (fn_code func args kwargs (at_call logger w)) as [out w'] eqn:Hc.
      destruct (wrapper_gain logger_name to_log func args kwargs w logger
                  func_args out w' s Hreg Hb Hc) as (_ & rs & -> & _).
      pose proof (Hf args kwargs (at_call logger w) s) as Hpre.
      rewrite Hc in Hpre. cbn [snd] in Hpre.
      assert (Hs : sink_content (at_call logger w) s = sink_content w s)
        by by destruct s.
      rewrite Hs in Hpre. by apply prefix_app_r.
  - by rewrite wrapper_unregistered.
Qed.

(** X9.  Tracing never touches the wiring: when the wrapped function
    leaves the registry, the instance and the handlers of every logger
    alone, so does the traced function; only construction registers
    loggers and attaches handlers. *)
Theorem tracing_keeps_wiring logger_name to_log func :
  keeps_wiring func → keeps_wiring (trace_call logger_name to_log func).
Proof.
  intros Hf args kwargs w. cbn [trace_call fn_code].
  destruct (_logger_list w !! logger_name) as [logger|] eqn:Hreg.
  - destruct (bound_arguments func args kwargs) as [e|func_args] eqn:Hb.
    + rewrite (wrapper_unbindable logger_name to_log func args kwargs w
                 logger e Hreg Hb). cbn [snd].
      repeat split. intros lg. by autorewrite with frame.
    + destruct (fn_code func args kwargs (at_call logger w)) as [out w'] eqn:Hc.
      destruct (wrapper_frame logger_name to_log func args kwargs w logger
                  func_args out w' Hreg Hb Hc) as (-> & -> & Hh).
      destruct (Hf args kwargs (at_call logger w)) as (Hr & Hi & Hh').
      rewrite Hc in Hr, Hi, Hh'. cbn [snd] in Hr, Hi, Hh'.
      rewrite Hr, Hi. repeat split. intros lg.
      rewrite Hh, Hh'. by autorewrite with frame.
  - by rewrite wrapper_unregistered.
Qed.

(** X10.  A failed traced call leaves the logger at ERROR: once the
    wrapper has logged an exception, the level of the logger is ERROR,
    and an [info] call made on that logger afterwards is dropped without
    any effect (until a next traced call sets the level to INFO again). *)
Theorem failed_call_mutes_info logger_name to_log func args kwargs w logger
    func_args e w' :
  _logger_list w !! logger_name = Some logger →
  bound_arguments func args kwargs = inr func_args →
  fn_code func args kwargs (at_call logger w) = (Raise e, w') →
  exn_is_Exception e = true →
  is_Some (loggerDict w' !! logger) →
  let after := (wrapper logger_name to_log func args kwargs w).2 in
  level_of after logger = ERROR ∧
  ∀ m, info logger m after = after.
Proof.
  intros Hreg Hbind Hcall Hexc [L HL] after.
  assert (Hlv : level_of after logger = ERROR).
  { unfold after.
    rewrite (wrapper_raises logger_name to_log func args kwargs w logger
               func_args e w' Hreg Hbind Hcall Hexc). cbn [snd].
    by rewrite level_of_log_all, level_of_setLevel, HL. }
  split; [exact Hlv|]. intros m. unfold info. apply log_disabled.
  unfold getEffectiveLevel. by rewrite Hlv.
Qed.



(** ** Pure functions, in sequence and stacked *)

Lemma pure_def_append_only name params body :
  append_only (pure_def name params body).
Proof. intros args kwargs w s. by rewrite pure_def_call. Qed.

Lemma pure_def_keeps_wiring name params body :
  keeps_wiring (pure_def name params body).
Proof. intros args kwargs w. by rewrite pure_def_call. Qed.

Lemma wrapper_pure_frame logger_name logger to_log name params body args
    kwargs w :
  _logger_list w !! logger_name = Some logger →
  _logger_list (wrapper logger_name to_log (pure_def name params body)
                  args kwargs w).2 = _logger_list w ∧
  ∀ lg, handlers_of (wrapper logger_name to_log (pure_def name params body)
                       args kwargs w).2 lg = handlers_of w lg.
Proof.
  intros Hreg.
  destruct (bound_arguments (pure_def name params body) args kwargs)
    as [e|func_args] eqn:Hb.
  - rewrite (wrapper_unbindable logger_name to_log _ args kwargs w
               logger e Hreg Hb). cbn [snd].
    split; [done|]. intros lg. by autorewrite with frame.
  - pose proof (pure_def_call name params body args kwargs
                  (at_call logger w)) as Hc.
    rewrite Hb in Hc.
    destruct (wrapper_frame logger_name to_log _ args kwargs w logger
                func_args _ _ Hreg Hb Hc) as (-> & _ & Hh).
    split; [done|]. intros lg. rewrite Hh. by autorewrite with frame.
Qed.

Lemma pure_call_outcome logger_name logger to_log name params body args
    kwargs w func_args :
  _logger_list w !! logger_name = Some logger →
  bound_arguments (pure_def name params body) args kwargs = inr func_args →
  (wrapper logger_name to_log (pure_def name params body) args kwargs w).1 =
  body func_args.
Proof.
  intros Hreg Hb.
  pose proof (pure_def_call name params body args kwargs (at_call logger w))
    as Hc.
  rewrite Hb in Hc.
  by destruct (wrapper_gain logger_name to_log _ args kwargs w logger
                 func_args _ _ ConsoleSink Hreg Hb Hc) as [-> _].
Qed.

(** The success block of a traced pure function, whatever the level of
    the logger was before the call. *)
Lemma pure_call_success logger_name to_log name params body args kwargs w
    func_args result console :
  _logger_list w !! logger_name = Some logger_name →
  handlers_of w logger_name = std_handlers console logger_name →
  bound_arguments (pure_def name params body) args kwargs = inr func_args →
  body func_args = Return result →
  (wrapper logger_name to_log (pure_def name params body) args kwargs w).1 =
    Return result ∧
  files (wrapper logger_name to_log (pure_def name params body) args kwargs w).2
    !!! info_path logger_name =
    files w !!! info_path logger_name ++
    map format
      (stamp (S (S (ticks w))) INFO
         (success_messages (pure_def name params body) func_args
            (wall (ticks w)) (wall (S (ticks w))) result to_log)) ∧
  files (wrapper logger_name to_log (pure_def name params body) args kwargs w).2
    !!! error_path logger_name =
    files w !!! error_path logger_name.
Proof.
  intros Hreg Hwired Hb Hbody.
  split; [by rewrite (pure_call_outcome logger_name logger_name to_log name
                        params body args kwargs w func_args Hreg Hb)|].
  pose proof (pure_def_call name params body args kwargs
                (at_call logger_name w)) as Hc.
  rewrite Hb, Hbody in Hc.
  destruct (at_call_enabled console logger_name w Hwired) as [Hen Hw'].
  exact (success_records_in_order logger_name to_log _ args kwargs w
           func_args result (at_call logger_name w) console
           Hreg Hb Hc Hen Hw').
Qed.




(** ** Binding the arguments (lines 63-65) *)

Lemma kw_get_pop_ne k k' kwargs :
  k ≠ k' → kw_get k (kw_pop k' kwargs) = kw_get k kwargs.
Proof.
  intros Hne. induction kwargs as [|[k0 v] rest IH]; [done|]. cbn [kw_pop kw_get].
  destruct (decide (k' = k0)) as [<-|Hne0].
  - by rewrite (decide_False (P := k = k')).
  - cbn [kw_get]. by rewrite IH.
Qed.

(** The bound arguments carry no name the signature does not have. *)
Lemma bind_keywords_names ps kwargs bound k :
  bind_keywords ps kwargs = inr bound →
  k ∉ map p_name ps → kw_get k bound = None.
Proof.
  revert kwargs bound. induction ps as [|p ps IH]; intros kwargs bound; cbn.
  - destruct kwargs as [|[k0 v] ?]; [|done]. by intros [= <-].
  - intros Hb Hk. apply not_elem_of_cons in Hk as [Hne Hk].
    destruct (kw_get (p_name p) kwargs).
    + destruct (bind_keywords ps _) as [|bound'] eqn:Hb'; [done|].
      injection Hb as <-. cbn. rewrite decide_False by done. by eapply IH.
    + destruct (p_default p); [by eapply IH | done].
Qed.

Lemma apply_defaults_cons p ps bound :
  apply_defaults (p :: ps) bound =
  match kw_get (p_name p) bound with
  | Some v => (p_name p, v) :: apply_defaults ps bound
  | None =>
      match p_default p with
      | Some d => (p_name p, d) :: apply_defaults ps bound
      | None => apply_defaults ps bound
      end
  end.
Proof.
  unfold apply_defaults. cbn [omap list_omap].
  destruct (kw_get (p_name p) bound); [done|]. by destruct (p_default p).
Qed.

Lemma apply_defaults_cons_other ps k v bound :
  k ∉ map p_name ps →
  apply_defaults ps ((k, v) :: bound) = apply_defaults ps bound.
Proof.
  induction ps as [|p ps IH]; [done|].
  intros [Hne Hk]%not_elem_of_cons. rewrite !apply_defaults_cons.
  cbn [kw_get]. rewrite (decide_False (P := p_name p = k)) by done.
  by rewrite IH.
Qed.

Lemma bind_keywords_values ps kwargs bound :
  NoDup (map p_name ps) →
  bind_keywords ps kwargs = inr bound →
  map Some (apply_defaults ps bound) =
  map (λ p, pair (p_name p) <$> argument_value [] kwargs 0 p) ps.
Proof.
  revert kwargs bound. induction ps as [|p ps IH]; intros kwargs bound; [done|].
  intros [Hp Hnd]%NoDup_cons Hb. cbn in Hb.
  unfold argument_value at 1. cbn [map lookup list_lookup].
  destruct (kw_get (p_name p) kwargs) as [v|] eqn:Hk.
  - destruct (bind_keywords ps _) as [|bound'] eqn:Hb'; [done|].
    injection Hb as <-. rewrite apply_defaults_cons. cbn [kw_get].
    rewrite decide_True by done. cbn [map fmap option_fmap option_map].
    f_equal. rewrite apply_defaults_cons_other by done.
    rewrite (IH _ _ Hnd Hb'). apply map_ext_in. intros p' Hin.
    unfold argument_value. cbn [lookup list_lookup].
    rewrite kw_get_pop_ne; [done|].
    intros Heq. apply Hp. rewrite <- Heq. apply list_elem_of_In.
    by apply in_map.
  - destruct (p_default p) as [d|] eqn:Hd; [|done].
    rewrite apply_defaults_cons.
    rewrite (bind_keywords_names ps kwargs bound (p_name p) Hb Hp), Hd.
    cbn [map fmap option_fmap option_map]. f_equal. by apply IH.
Qed.

Lemma bind_values ps args kwargs bound :
  NoDup (map p_name ps) →
  bind ps args kwargs = inr bound →
  map Some (apply_defaults ps bound) =
  imap (λ i p, pair (p_name p) <$> argument_value args kwargs i p) ps.
Proof.
  revert ps bound. induction args as [|a args IH]; intros ps bound Hnd Hb.
  - cbn in Hb. rewrite (bind_keywords_values ps kwargs bound Hnd Hb).
    rewrite <- (imap_const (λ p, pair (p_name p) <$> argument_value [] kwargs 0 p)).
    apply imap_ext. intros i p _. by unfold argument_value.
  - cbn in Hb. destruct ps as [|p ps]; [done|].
    apply NoDup_cons in Hnd as [Hp Hnd].
    destruct (kw_get (p_name p) kwargs); [done|].
    destruct (bind ps args kwargs) as [|bound'] eqn:Hb'; [done|].
    injection Hb as <-. rewrite apply_defaults_cons. cbn [kw_get].
    rewrite decide_True by done. rewrite imap_cons.
    unfold argument_value at 1. cbn [lookup list_lookup map fmap option_fmap option_map].
    f_equal. rewrite apply_defaults_cons_other by done.
    rewrite (IH ps bound' Hnd Hb'). by apply imap_ext.
Qed.

(** X16.  What is logged as arguments follows the signature: when the
    call's arguments fit a signature with distinct parameter names,
    there is exactly one logged pair per declared parameter, in
    declaration order, and the value of the [i]-th is the positional
    argument at position [i], else the keyword argument of that name,
    else the declared default. *)
Theorem bound_arguments_follow_signature func args kwargs func_args :
  NoDup (map p_name (fn_params func)) →
  bound_arguments func args kwargs = inr func_args →
  length func_args = length (fn_params func) ∧
  map fst func_args = map p_name (fn_params func) ∧
  ∀ i p, fn_params func !! i = Some p →
    ∃ v, argument_value args kwargs i p = Some v ∧
         func_args !! i = Some (p_name p, v).
Proof.
  intros Hnd Hb. unfold bound_arguments in Hb.
  destruct (bind (fn_params func) args kwargs) as [|bound] eqn:Hbind; [done|].
  injection Hb as <-.
  pose proof (bind_values _ _ _ _ Hnd Hbind) as Hv.
  set (fa := apply_defaults (fn_params func) bound) in *.
  assert (Hi : ∀ i p, fn_params func !! i = Some p →
             ∃ v, argument_value args kwargs i p = Some v ∧
                  fa !! i = Some (p_name p, v)).
  { intros i p Hp.
    pose proof (f_equal (λ l, l !! i) Hv) as Hl. cbn beta in Hl.
    rewrite list_lookup_imap, Hp in Hl. cbn in Hl.
    change (map Some fa) with (Some <$> fa) in Hl.
    rewrite list_lookup_fmap in Hl.
    destruct (fa !! i) as [x|]; [|done]. cbn in Hl.
    destruct (argument_value args kwargs i p) as [v|]; [|done].
    cbn in Hl. injection Hl as ->. by exists v. }
  assert (Hlen : length fa = length (fn_params func)).
  { pose proof (f_equal length Hv) as Hl.
    by rewrite length_map, length_imap in Hl. }
  split; [exact Hlen|]. split; [|exact Hi].
  apply list_eq. intros i.
  change (map fst fa) with (fst <$> fa).
  change (map p_name (fn_params func)) with (p_name <$> fn_params func).
  rewrite !list_lookup_fmap.
  destruct (fn_params func !! i) as [p|] eqn:Hp.
  - destruct (Hi i p Hp) as (v & _ & ->). done.
  - apply lookup_ge_None in Hp. rewrite <- Hlen in Hp.
    apply lookup_ge_None in Hp. by rewrite Hp.
Qed.

Lemma kw_get_pop_None k k' kwargs :
  kw_get k kwargs = None → kw_get k (kw_pop k' kwargs) = None.
Proof.
  induction kwargs as [|[k0 v] rest IH]; [done|]. cbn [kw_pop kw_get].
  destruct (decide (k = k0)); [done|]. intros H.
  destruct (decide (k' = k0)); [by apply IH|].
  cbn [kw_get]. rewrite decide_False by done. by apply IH.
Qed.

Lemma bind_keywords_unknown ps kwargs k :
  is_Some (kw_get k kwargs) → k ∉ map p_name ps →
  ∃ e, bind_keywords ps kwargs = inl e.
Proof.
  revert kwargs. induction ps as [|p ps IH]; intros kwargs Hk Hn; cbn.
  - destruct kwargs as [|[k0 v] ?]; [by destruct Hk | by eexists].
  - apply not_elem_of_cons in Hn as [Hne Hn].
    destruct (kw_get (p_name p) kwargs).
    + destruct (IH (kw_pop (p_name p) kwargs)) as [e ->]; [|done|by eexists].
      by rewrite kw_get_pop_ne.
    + destruct (p_default p); [by apply IH | by eexists].
Qed.

Lemma bind_keywords_missing ps kwargs p :
  p ∈ ps → kw_get (p_name p) kwargs = None → p_default p = None →
  ∃ e, bind_keywords ps kwargs = inl e.
Proof.
  revert kwargs. induction ps as [|q ps IH]; intros kwargs Hin Hk Hd; cbn.
  - by apply elem_of_nil in Hin.
  - apply elem_of_cons in Hin as [<-|Hin].
    + rewrite Hk, Hd. by eexists.
    + destruct (kw_get (p_name q) kwargs).
      * destruct (IH (kw_pop (p_name q) kwargs)) as [e ->];
          [done | by apply kw_get_pop_None | done | by eexists].
      * destruct (p_default q); [by apply IH | by eexists].
Qed.

Lemma bind_rejects ps args kwargs :
  (length ps < length args)%nat ∨
  (∃ k, is_Some (kw_get k kwargs) ∧ k ∉ map p_name ps) ∨
  (∃ i p, ps !! i = Some p ∧ (length args ≤ i)%nat ∧
          kw_get (p_name p) kwargs = None ∧ p_default p = None) ∨
  (∃ i p, ps !! i = Some p ∧ (i < length args)%nat ∧
          is_Some (kw_get (p_name p) kwargs)) →
  ∃ e, bind ps args kwargs = inl e.
Proof.
  revert ps. induction args as [|a args IH]; intros ps H.
  - cbn [bind].
    destruct H as [H|[(k & Hk & Hn)|[(i & p & Hp & _ & Hk & Hd)
                                    |(i & p & _ & Hi & _)]]].
    + cbn in H. lia.
    + by eapply bind_keywords_unknown.
    + eapply bind_keywords_missing; [|done..]. by eapply list_elem_of_lookup_2.
    + cbn in Hi. lia.
  - cbn [bind]. destruct ps as [|q ps]; [by eexists|].
    destruct (kw_get (p_name q) kwargs) eqn:Hq; [by eexists|].
    destruct (IH ps) as [e ->]; [|by eexists].
    destruct H as [H|[(k & Hk & Hn)|[(i & p & Hp & Hi & Hk & Hd)
                                    |(i & p & Hp & Hi & Hk)]]].
    + left. cbn in H. lia.
    + right; left. exists k. split; [done|].
      intros Hin. apply Hn. cbn. by right.
    + right; right; left. destruct i as [|i]; [cbn in Hi; lia|].
      exists i, p. cbn in Hp, Hi. repeat split; [done | lia | done..].
    + right; right; right. destruct i as [|i].
      * cbn in Hp. injection Hp as <-. rewrite Hq in Hk. by destruct Hk.
      * exists i, p. cbn in Hp, Hi. repeat split; [done | lia | done].
Qed.

Lemma kw_get_pop_Some k k' kwargs :
  is_Some (kw_get k (kw_pop k' kwargs)) → k ≠ k' ∧ is_Some (kw_get k kwargs).
Proof.
  intros H. destruct (decide (k = k')) as [->|Hne].
  - exfalso. revert H. induction kwargs as [|[k0 v] rest IH]; cbn [kw_pop].
    + by intros [? ?].
    + destruct (decide (k' = k0)); [done|]. cbn [kw_get].
      by rewrite decide_False.
  - by rewrite kw_get_pop_ne in H.
Qed.

Lemma bind_keywords_fails_only ps kwargs e :
  NoDup (map p_name ps) →
  bind_keywords ps kwargs = inl e →
  (∃ k, is_Some (kw_get k kwargs) ∧ k ∉ map p_name ps) ∨
  (∃ p, p ∈ ps ∧ kw_get (p_name p) kwargs = None ∧ p_default p = None).
Proof.
  revert kwargs e.
  induction ps as [|p ps IH]; intros kwargs e Hnd Hb; cbn in Hb.
  - destruct kwargs as [|[k v] rest]; [done|]. left. exists k. split.
    + cbn. rewrite decide_True by done. by eexists.
    + apply not_elem_of_nil.
  - apply NoDup_cons in Hnd as [Hp Hnd].
    destruct (kw_get (p_name p) kwargs) as [v|] eqn:Hk.
    + destruct (bind_keywords ps _) as [e'|] eqn:Hb'; [|done].
      destruct (IH _ _ Hnd Hb') as [(k & Hks & Hkn)|(q & Hq & Hqk & Hqd)].
      * apply kw_get_pop_Some in Hks as [Hne Hks]. left. exists k.
        split; [done|]. by apply not_elem_of_cons.
      * right. exists q. split; [by right|]. split; [|done].
        rewrite kw_get_pop_ne in Hqk; [done|].
        intros Heq. apply Hp. rewrite <- Heq.
        apply list_elem_of_In, in_map. by apply list_elem_of_In.
    + destruct (p_default p) eqn:Hd.
      * destruct (IH _ _ Hnd Hb) as [(k & Hks & Hkn)|(q & Hq & Hqk & Hqd)].
        -- left. exists k. split; [done|]. apply not_elem_of_cons.
           split; [|done]. intros ->. rewrite Hk in Hks. by destruct Hks.
        -- right. exists q. split; [by right | done].
      * right. exists p. split; [by left | done].
Qed.

Lemma bind_fails_only ps args kwargs e :
  NoDup (map p_name ps) →
  bind ps args kwargs = inl e →
  (length ps < length args)%nat ∨
  (∃ k, is_Some (kw_get k kwargs) ∧ k ∉ map p_name ps) ∨
  (∃ i p, ps !! i = Some p ∧ (length args ≤ i)%nat ∧
          kw_get (p_name p) kwargs = None ∧ p_default p = None) ∨
  (∃ i p, ps !! i = Some p ∧ (i < length args)%nat ∧
          is_Some (kw_get (p_name p) kwargs)).
Proof.
  revert ps e.
  induction args as [|a args IH]; intros ps e Hnd Hb; cbn [bind] in Hb.
  - destruct (bind_keywords_fails_only ps kwargs e Hnd Hb)
      as [H|(p & Hp & Hk & Hd)].
    + right; by left.
    + right; right; left. apply list_elem_of_lookup_1 in Hp as [i Hi].
      exists i, p. repeat split; [done | cbn; lia | done..].
  - destruct ps as [|p ps]; [left; cbn; lia|].
    apply NoDup_cons in Hnd as [Hp Hnd].
    destruct (kw_get (p_name p) kwargs) as [v|] eqn:Hk.
    + right; right; right. exists 0%nat, p.
      repeat split; [cbn; lia | by rewrite Hk].
    + destruct (bind ps args kwargs) as [e'|] eqn:Hb'; [|done].
      destruct (IH ps e' Hnd) as [H|[(k & Hks & Hkn)|[(i & q & Hq & Hi & Hqk & Hqd)
                                                   |(i & q & Hq & Hi & Hqk)]]];
        [done|..].
      * left. cbn. lia.
      * right; left. exists k. split; [done|]. apply not_elem_of_cons.
        split; [|done]. intros ->. rewrite Hk in Hks. by destruct Hks.
      * right; right; left. exists (S i), q.
        repeat split; [done | cbn; lia | done..].
      * right; right; right. exists (S i), q.
        repeat split; [done | cbn; lia | done].
Qed.

(** X17.  The binding of line 63 fails in exactly four situations (for a
    signature with distinct parameter names): more positional arguments
    than parameters, a keyword that names no parameter, a required
    parameter given neither by position nor by keyword, or a parameter
    given both by position and by keyword. *)
Theorem binding_fails_exactly_when func args kwargs :
  NoDup (map p_name (fn_params func)) →
  (∃ e, bound_arguments func args kwargs = inl e) ↔
  (length (fn_params func) < length args)%nat ∨
  (∃ k, is_Some (kw_get k kwargs) ∧ k ∉ map p_name (fn_params func)) ∨
  (∃ i p, fn_params func !! i = Some p ∧ (length args ≤ i)%nat ∧
          kw_get (p_name p) kwargs = None ∧ p_default p = None) ∨
  (∃ i p, fn_params func !! i = Some p ∧ (i < length args)%nat ∧
          is_Some (kw_get (p_name p) kwargs)).
Proof.
  intros Hnd. unfold bound_arguments. split.
  - intros [e He].
    destruct (bind (fn_params func) args kwargs) as [e'|] eqn:Hb; [|done].
    by eapply bind_fails_only.
  - intros Hbad. destruct (bind_rejects _ _ _ Hbad) as [e ->]. by exists e.
Qed.

(** ** The formatter (line 25) *)

(** X18.  A formatted record can be read back: with four-digit years,
    two records of level INFO or ERROR that are formatted to the same
    text have the same level and the same message, so no line of one
    level can be taken for a line of the other. *)
Theorem format_determines_level_and_message r1 r2 :
  levelno r1 = INFO ∨ levelno r1 = ERROR →
  levelno r2 = INFO ∨ levelno r2 = ERROR →
  four_digit_year (localtime (created r1)) →
  four_digit_year (localtime (created r2)) →
  format r1 = format r2 →
  levelno r1 = levelno r2 ∧ message r1 = message r2.
Proof.
  intros H1 H2 Hy1 Hy2 Heq.
  apply (f_equal (match_atoms stamp_pattern)) in Heq. unfold format in Heq.
  rewrite !match_atoms_stamp in Heq by done. injection Heq as Heq.
  destruct H1 as [E1|E1], H2 as [E2|E2]; rewrite E1, E2 in *.
  - split; [done|].
    change (getLevelName INFO +:+ "] " +:+ message r1)
      with ("INFO] " +:+ message r1) in Heq.
    change (getLevelName INFO +:+ "] " +:+ message r2)
      with ("INFO] " +:+ message r2) in Heq.
    by apply (inj (String.app "INFO] ")) in Heq.
  - change (getLevelName INFO +:+ "] " +:+ message r1)
      with (String "I" ("NFO] " +:+ message r1)) in Heq.
    change (getLevelName ERROR +:+ "] " +:+ message r2)
      with (String "E" ("RROR] " +:+ message r2)) in Heq.
    discriminate Heq.
  - change (getLevelName ERROR +:+ "] " +:+ message r1)
      with (String "E" ("RROR] " +:+ message r1)) in Heq.
    change (getLevelName INFO +:+ "] " +:+ message r2)
      with (String "I" ("NFO] " +:+ message r2)) in Heq.
    discriminate Heq.
  - split; [done|].
    change (getLevelName ERROR +:+ "] " +:+ message r1)
      with ("ERROR] " +:+ message r1) in Heq.
    change (getLevelName ERROR +:+ "] " +:+ message r2)
      with ("ERROR] " +:+ message r2) in Heq.
    by apply (inj (String.app "ERROR] ")) in Heq.
Qed.

End Further.

(** * Worked instances

    The scenarios of the specification and the inputs on which it and the
    code part ways, on the concrete runtime [Demo.runtime]. *)

Section Instances.
Import Demo.

(** [f(a, b, c=3)] called as [f(1, 2)]: the arguments are logged in
    declaration order, the default included. *)
Example argument_fidelity :
  files (wrapper "svc" None f_abc [PInt 1; PInt 2] [] svc_world).2
    !!! info_path "svc" =
  ["[2024-01-01 00:00:02] [INFO] Calling function: f | Execution time: 1.0000 seconds";
   "[2024-01-01 00:00:03] [INFO] Arguments:";
   "[2024-01-01 00:00:04] [INFO] a: 1";
   "[2024-01-01 00:00:05] [INFO] b: 2";
   "[2024-01-01 00:00:06] [INFO] c: 3";
   "[2024-01-01 00:00:07] [INFO] Result: None"].
Proof. vm_compute. reflexivity. Qed.

(** [add(2, 3)] under [svc]: returns 5, and the info log gains the block
    of the scenario. *)
Example scenario_add :
  (wrapper "svc" None add [PInt 2; PInt 3] [] svc_world).1 = Return (PInt 5) ∧
  files (wrapper "svc" None add [PInt 2; PInt 3] [] svc_world).2
    !!! info_path "svc" =
  ["[2024-01-01 00:00:02] [INFO] Calling function: add | Execution time: 1.0000 seconds";
   "[2024-01-01 00:00:03] [INFO] Arguments:";
   "[2024-01-01 00:00:04] [INFO] x: 2";
   "[2024-01-01 00:00:05] [INFO] y: 3";
   "[2024-01-01 00:00:06] [INFO] Result: 5"].
Proof. vm_compute. split; reflexivity. Qed.

(** A name listed twice gets the handlers twice, and every record is
    written twice. *)
Example name_listed_twice :
  files (error "svc" "disk full" (__new__ ["svc"; "svc"] false fresh).2)
    !!! error_path "svc" =
  ["[2024-01-01 00:00:00] [ERROR] disk full";
   "[2024-01-01 00:00:00] [ERROR] disk full"].
Proof. vm_compute. reflexivity. Qed.

Lemma svc_registered : _logger_list svc_world !! "svc" = Some "svc".
Proof. vm_compute. reflexivity. Qed.

(** *** [add(2, 3)] *)

Lemma add_bound : bound_arguments add [PInt 2; PInt 3] [] = inr add_args.
Proof. vm_compute. reflexivity. Qed.

Lemma add_returns :
  fn_code add [PInt 2; PInt 3] [] (at_call "svc" svc_world) =
  (Return (PInt 5), at_call "svc" svc_world).
Proof. vm_compute. reflexivity. Qed.



(** *** [add()] : the arguments do not fit *)

Lemma unbindable_call_not_invoked_witness :
  _logger_list svc_world !! "svc" = Some "svc" ∧
  bind (fn_params add) [] [] =
    inl (TypeError "missing a required argument: 'x'") ∧
  (wrapper "svc" None add [] [] svc_world).1 =
    Raise (TypeError "missing a required argument: 'x'").
Proof.
  split; [exact svc_registered|]. split; [reflexivity|].
  exact (proj1 (unbindable_call_not_invoked "svc" "svc" None add [] []
                  svc_world (TypeError "missing a required argument: 'x'")
                  svc_registered eq_refl)).
Defined.

(** C10, as stated, fails when the name is not registered either: the
    lookup of line 59 comes first and the call ends in the
    [AttributeError] of line 60, not in a [TypeError]. *)
Lemma unbindable_call_unregistered_name :
  bind (fn_params add) [] [] =
    inl (TypeError "missing a required argument: 'x'") ∧
  ¬ ∃ e w', wrapper "audit" None add [] [] svc_world = (Raise e, w') ∧
            exn_type e = "TypeError".
Proof.
  split; [reflexivity|].
  assert (wrapper "audit" None add [] [] svc_world =
          (Raise (AttributeError
                    "'NoneType' object has no attribute 'setLevel'"),
           svc_world)) as -> by (vm_compute; reflexivity).
  intros (e & w' & H & He). injection H as <- _. discriminate He.
Qed.

(** *** A name that was never registered *)

Lemma unregistered_name_fails_witness :
  _logger_list fresh !! "audit" = None ∧
  (∀ c, c ∈ [(["svc"], false)] → "audit" ∉ c.1) ∧
  wrapper "audit" None add [PInt 2; PInt 3] []
    (run_new [(["svc"], false)] fresh) =
  (Raise (AttributeError "'NoneType' object has no attribute 'setLevel'"),
   run_new [(["svc"], false)] fresh).
Proof.
  assert (H1 : _logger_list fresh !! "audit" = None) by reflexivity.
  assert (H2 : ∀ c : list string * bool,
             c ∈ [(["svc"], false)] → "audit" ∉ c.1).
  { intros c ->%list_elem_of_singleton. cbn [fst].
    intros H%list_elem_of_singleton. discriminate H. }
  split; [exact H1|]. split; [exact H2|].
  exact (proj1 (unregistered_name_fails [(["svc"], false)] fresh "audit" None
                  add [PInt 2; PInt 3] [] H1 H2)).
Defined.

(** *** [div(1, 0)] *)

Lemma div_bound : bound_arguments div [PInt 1; PInt 0] [] = inr div_args.
Proof. vm_compute. reflexivity. Qed.

Lemma div_raises :
  fn_code div [PInt 1; PInt 0] [] (at_call "svc" svc_world) =
  (Raise (ZeroDivisionError "div"), at_call "svc" svc_world).
Proof. vm_compute. reflexivity. Qed.

Lemma div_wired :
  handlers_of (at_call "svc" svc_world) "svc" = std_handlers false "svc".
Proof. vm_compute. reflexivity. Qed.






(** *** [quit()] : an exception outside [Exception] *)


(** *** Records sent to a logger directly *)

Lemma error_records_reach_both_files_witness :
  handlers_of svc_world "svc" = std_handlers false "svc" ∧
  (getEffectiveLevel svc_world "svc" <= ERROR)%Z ∧
  files (error "svc" "disk full" svc_world) !!! error_path "svc" =
    files svc_world !!! error_path "svc" ++
    ["[2024-01-01 00:00:00] [ERROR] disk full"].
Proof.
  assert (H1 : handlers_of svc_world "svc" = std_handlers false "svc")
    by (vm_compute; reflexivity).
  assert (H2 : (getEffectiveLevel svc_world "svc" <= ERROR)%Z)
    by (vm_compute; discriminate).
  split; [exact H1|]. split; [exact H2|].
  exact (proj1 (proj2 (error_records_reach_both_files false "svc" svc_world
                         "disk full" H1 H2))).
Defined.

(** *** A traced function that calls a traced function *)

(** C5 fails on this call.  [probe(1, 0)] raises inside [safe_ratio],
    the wrapper of [probe] sets the logger of [svc] to ERROR (line 84),
    [safe_ratio] handles the exception and returns 0, and the wrapper of
    [safe_ratio], which set the level to INFO before the call (line 60)
    and does not set it again, sends its INFO records to a logger that
    now drops them: the call returns normally and the info log holds the
    error records of [probe] and not one success record. *)
Lemma nested_failure_silences_caller :
  ratio_call.1 = Return (PInt 0) ∧
  files ratio_call.2 !!! info_path "svc" =
    ["[2024-01-01 00:00:02] [ERROR] Calling function: probe";
     "[2024-01-01 00:00:03] [ERROR] Exception: division by zero";
     "[2024-01-01 00:00:04] [ERROR] Arguments:";
     "[2024-01-01 00:00:05] [ERROR] x: 1";
     "[2024-01-01 00:00:06] [ERROR] y: 0";
     "[2024-01-01 00:00:07] [ERROR] Traceback: " +:+
       format_exc (ZeroDivisionError "probe")] ∧
  level_of ratio_call.2 "svc" = ERROR.
Proof. vm_compute. repeat split. Qed.

(** *** Construction *)





(** *** Sinks *)



(** *** What tracing preserves *)

Lemma tracing_is_append_only_witness :
  append_only add ∧ append_only (trace_call "svc" None add).
Proof.
  split; [apply pure_def_append_only|].
  apply tracing_is_append_only, pure_def_append_only.
Defined.

Lemma tracing_keeps_wiring_witness :
  keeps_wiring add ∧ keeps_wiring (trace_call "svc" None add).
Proof.
  split; [apply pure_def_keeps_wiring|].
  apply tracing_keeps_wiring, pure_def_keeps_wiring.
Defined.

Lemma failed_call_mutes_info_witness :
  _logger_list svc_world !! "svc" = Some "svc" ∧
  bound_arguments div [PInt 1; PInt 0] [] = inr div_args ∧
  fn_code div [PInt 1; PInt 0] [] (at_call "svc" svc_world) =
    (Raise (ZeroDivisionError "div"), at_call "svc" svc_world) ∧
  exn_is_Exception (ZeroDivisionError "div") = true ∧
  is_Some (loggerDict (at_call "svc" svc_world) !! "svc") ∧
  info "svc" "still alive" div_call.2 = div_call.2.
Proof.
  assert (Hex : is_Some (loggerDict (at_call "svc" svc_world) !! "svc"))
    by (vm_compute; eexists; reflexivity).
  split; [exact svc_registered|]. split; [exact div_bound|].
  split; [exact div_raises|]. split; [reflexivity|]. split; [exact Hex|].
  exact (proj2 (failed_call_mutes_info "svc" None div [PInt 1; PInt 0] []
                  svc_world "svc" div_args (ZeroDivisionError "div")
                  (at_call "svc" svc_world)
                  svc_registered div_bound div_raises eq_refl Hex)
               "still alive").
Defined.

(** *** Calls in sequence, after construction, and stacked *)

Lemma svc_wired : handlers_of svc_world "svc" = std_handlers false "svc".
Proof. vm_compute. reflexivity. Qed.

Lemma add_bound_xy :
  bound_arguments (pure_def "add" xy add_body) [PInt 2; PInt 3] [] = inr add_args.
Proof. vm_compute. reflexivity. Qed.




(** *** Binding and formatting *)

Lemma f_abc_bound :
  bound_arguments f_abc [PInt 1] [("b", PInt 2)] =
  inr [("a", PInt 1); ("b", PInt 2); ("c", PInt 3)].
Proof. vm_compute. reflexivity. Qed.

Lemma f_abc_distinct : NoDup (map p_name (fn_params f_abc)).
Proof.
  apply (bool_decide_unpack _). vm_compute. exact I.
Qed.

Lemma bound_arguments_follow_signature_witness :
  NoDup (map p_name (fn_params f_abc)) ∧
  bound_arguments f_abc [PInt 1] [("b", PInt 2)] =
    inr [("a", PInt 1); ("b", PInt 2); ("c", PInt 3)] ∧
  map fst [("a", PInt 1); ("b", PInt 2); ("c", PInt 3)] =
    map p_name (fn_params f_abc).
Proof.
  split; [exact f_abc_distinct|]. split; [exact f_abc_bound|].
  exact (proj1 (proj2 (bound_arguments_follow_signature f_abc [PInt 1]
                         [("b", PInt 2)] _ f_abc_distinct f_abc_bound))).
Defined.

Lemma add_distinct : NoDup (map p_name (fn_params add)).
Proof. apply (bool_decide_unpack _). vm_compute. exact I. Qed.

Lemma binding_fails_exactly_when_witness :
  NoDup (map p_name (fn_params add)) ∧
  ∃ e, bound_arguments add [PInt 1; PInt 2; PInt 3] [] = inl e.
Proof.
  split; [exact add_distinct|].
  apply (proj2 (binding_fails_exactly_when add [PInt 1; PInt 2; PInt 3] []
                  add_distinct)).
  left. vm_compute. lia.
Defined.



Lemma format_determines_level_and_message_witness :
  let r1 := {| levelno := ERROR; created := 0%nat; message := "disk full" |} in
  let r2 := {| levelno := ERROR; created := (24 * 3600)%nat; message := "disk full" |} in
  (levelno r1 = INFO ∨ levelno r1 = ERROR) ∧
  (levelno r2 = INFO ∨ levelno r2 = ERROR) ∧
  four_digit_year (localtime (created r1)) ∧
  four_digit_year (localtime (created r2)) ∧
  format r1 = format r2 ∧
  message r1 = message r2.
Proof.
  intros r1 r2.
  assert (Hy : ∀ n : nat, four_digit_year (localtime n))
    by (intros n; split; discriminate).
  assert (Hf : format r1 = format r2) by (vm_compute; reflexivity).
  split; [by right|]. split; [by right|]. split; [apply Hy|].
  split; [apply Hy|]. split; [exact Hf|].
  exact (proj2 (format_determines_level_and_message r1 r2 (or_intror eq_refl)
                  (or_intror eq_refl) (Hy 0%nat) (Hy (24 * 3600)%nat) Hf)).
Defined.

End Instances.
